(** * streaming_client/client.py: token streams, wrappers and the unified client

    A shallow embedding of [client.py].  Python generators are embedded as
    state machines answering the iterator protocol ([next] / [anext]): one
    pull returns a token, signals the end, or raises.  The suspending
    variants thread the event loop (random source and sleep log). *)

From Stdlib Require Import String Ascii Bool Arith NArith QArith Lia List.
Import ListNotations.
Local Close Scope Q_scope.
Local Open Scope list_scope.

Set Implicit Arguments.

(** ** Python strings *)

(** A [str] is a sequence of Unicode code points. *)
Definition char := N.
Definition str := list char.

(** String literals of the source, written in ASCII. *)
Definition lit (s : string) : str := map N_of_ascii (list_ascii_of_string s).

(** [str.isspace] on one code point: the characters [str.split()] treats as
    separators (Unicode whitespace, as in CPython's [_PyUnicode_IsWhitespace]). *)
Definition isspace (c : char) : bool :=
  ((9 <=? c) && (c <=? 13) || (28 <=? c) && (c <=? 32) || (c =? 133) || (c =? 160)
   || (c =? 5760) || (8192 <=? c) && (c <=? 8202) || (c =? 8232) || (c =? 8233)
   || (c =? 8239) || (c =? 8287) || (c =? 12288))%N.

Definition space : char := 32%N.

(** Truthiness of a [str]: only the empty string is falsy. *)
Definition truthy (s : str) : bool :=
  match s with [] => false | _ :: _ => true end.

(** The word collected so far, closed off when a separator or the end comes. *)
Definition flush (word : str) : list str :=
  match word with [] => [] | _ :: _ => [word] end.

(** [s.split()] with no argument: scan left to right, runs of whitespace
    separate the words, no empty word is produced. *)
Fixpoint split_ws (word : str) (s : str) : list str :=
  match s with
  | [] => flush word
  | c :: rest =>
      if isspace c then flush word ++ split_ws [] rest
      else split_ws (word ++ [c]) rest
  end.

Definition split (s : str) : list str := split_ws [] s.

(** [sep.join(items)] *)
Fixpoint join (sep : str) (items : list str) : str :=
  match items with
  | [] => []
  | [x] => x
  | x :: rest => x ++ sep ++ join sep rest
  end.

(** A token in the sense of the tokenizer: non-empty, no whitespace inside. *)
Definition no_space (t : str) : bool := forallb (fun c => negb (isspace c)) t.

Definition is_word (t : str) : bool := truthy t && no_space t.

Definition all_space (s : str) : bool := forallb isspace s.

(** The spec's reading of the tokenization: the input is cut at runs of
    whitespace; what is left between the runs are the tokens. *)
Inductive ws_split : str -> list str -> Prop :=
| ws_done s : all_space s = true -> ws_split s []
| ws_skip c s ts : isspace c = true -> ws_split s ts -> ws_split (c :: s) ts
| ws_word t s ts :
    is_word t = true ->
    (* the word is maximal: what follows is the end or a separator *)
    match s with [] => True | c :: _ => isspace c = true end ->
    ws_split s ts -> ws_split (t ++ s) (t :: ts).

(** Single-space-normalized input: not empty, the only whitespace is the
    space character, never doubled, never first or last. *)
Fixpoint normalized_from (prev_space : bool) (s : str) : bool :=
  match s with
  | [] => negb prev_space
  | c :: rest =>
      if isspace c
      then (c =? space)%N && negb prev_space && normalized_from true rest
      else normalized_from false rest
  end.

Definition single_space_normalized (s : str) : bool :=
  truthy s && normalized_from true s.

(** ** Exceptions and results *)

(** An instance of [Exception] (or of a subclass): its class name and [str(e)]. *)
Record exn := { exn_type : string; exn_msg : str }.

(** What a [raise] can carry.  [except Exception] catches a [Failure]; a
    [Signal] is a [BaseException] outside [Exception] ([KeyboardInterrupt],
    [SystemExit], [GeneratorExit], [asyncio.CancelledError]). *)
Inductive raised :=
| Failure (e : exn)
| Signal (name : string).

(** The result of calling a Python function: it returns or it raises. *)
Inductive outcome (A : Type) :=
| Ret (a : A)
| Throw (r : raised).
Arguments Ret {A} a.
Arguments Throw {A} r.

Definition bind {A B} (m : outcome A) (k : A -> outcome B) : outcome B :=
  match m with
  | Ret a => k a
  | Throw r => Throw r
  end.

Notation "x <- m ;; k" := (bind m (fun x => k))
  (at level 61, m at next level, right associativity).

(** A function that always returns. *)
Definition pure_fn {A B} (f : A -> B) : A -> outcome B := fun a => Ret (f a).

(** ** The iterator protocol *)

(** One pull on a sequence: a token, the end ([StopIteration] /
    [StopAsyncIteration]), or an exception. *)
Inductive pull (A : Type) :=
| Token (a : A)
| End
| Raise (r : raised).
Arguments Token {A} a.
Arguments End {A}.
Arguments Raise {A} r.

(** How an iteration stopped. *)
Inductive finish :=
| Exhausted
| Raised (r : raised).

(** [__next__]: the blocking pull. *)
Class Iterator (A G : Type) := next : G -> pull A * G.

(** [__anext__]: the suspending pull, run on an event loop [W]. *)
Class AsyncIterator (W A G : Type) := anext : G -> W -> pull A * G * W.

(** [for token in g]: pull until the end or an exception, keeping what was
    received.  [None] when the fuel runs out first. *)
Fixpoint drain {A G} `{Iterator A G} (fuel : nat) (g : G) : option (list A * finish * G) :=
  match fuel with
  | O => None
  | S fuel' =>
      match next g with
      | (Token t, g') =>
          match drain fuel' g' with
          | Some (ts, fin, gf) => Some (t :: ts, fin, gf)
          | None => None
          end
      | (End, g') => Some ([], Exhausted, g')
      | (Raise r, g') => Some ([], Raised r, g')
      end
  end.

(** [async for token in g] *)
Fixpoint adrain {W A G} `{AsyncIterator W A G} (fuel : nat) (g : G) (w : W)
  : option (list A * finish * G * W) :=
  match fuel with
  | O => None
  | S fuel' =>
      match anext g w with
      | (Token t, g', w') =>
          match adrain fuel' g' w' with
          | Some (ts, fin, gf, wf) => Some (t :: ts, fin, gf, wf)
          | None => None
          end
      | (End, g', w') => Some ([], Exhausted, g', w')
      | (Raise r, g', w') => Some ([], Raised r, g', w')
      end
  end.

(** The first [k] pulls, whatever they answer. *)
Fixpoint pulls {A G} `{Iterator A G} (k : nat) (g : G) : list (pull A) * G :=
  match k with
  | O => ([], g)
  | S k' => let (p, g') := next g in
            let (ps, gf) := pulls k' g' in (p :: ps, gf)
  end.

Fixpoint apulls {W A G} `{AsyncIterator W A G} (k : nat) (g : G) (w : W)
  : list (pull A) * G * W :=
  match k with
  | O => ([], g, w)
  | S k' => let '(p, g', w') := anext g w in
            let '(ps, gf, wf) := apulls k' g' w' in (p :: ps, gf, wf)
  end.

(** Big-step reading of an iteration: pulling [g] gives the tokens [ts], then
    stops as [fin], leaving the sequence in state [gf]. *)
Inductive emits {A G} `{Iterator A G} : G -> list A -> finish -> G -> Prop :=
| emits_end g gf : next g = (End, gf) -> emits g [] Exhausted gf
| emits_raise g r gf : next g = (Raise r, gf) -> emits g [] (Raised r) gf
| emits_token g t g' ts fin gf :
    next g = (Token t, g') -> emits g' ts fin gf -> emits g (t :: ts) fin gf.

Inductive aemits {W A G} `{AsyncIterator W A G}
  : G -> W -> list A -> finish -> G -> W -> Prop :=
| aemits_end g w gf wf : anext g w = (End, gf, wf) -> aemits g w [] Exhausted gf wf
| aemits_raise g w r gf wf :
    anext g w = (Raise r, gf, wf) -> aemits g w [] (Raised r) gf wf
| aemits_token g w t g' w' ts fin gf wf :
    anext g w = (Token t, g', w') -> aemits g' w' ts fin gf wf ->
    aemits g w (t :: ts) fin gf wf.

(** The pull that stops an iteration that way. *)
Definition next_of {A G} (fin : finish) (gf : G) : pull A * G :=
  match fin with
  | Exhausted => (End, gf)
  | Raised r => (Raise r, gf)
  end.

(** A fuelled computation returns [v]: every large enough fuel gives [v]. *)
Definition returns {A} (run : nat -> option A) (v : A) : Prop :=
  exists n, forall fuel, n <= fuel -> run fuel = Some v.

(** A caller-built sequence, as in the tests: the tokens it will yield and the
    way it stops.  Once stopped it stays stopped. *)
Inductive scripted (A : Type) :=
| Script (pending : list A) (fin : finish)
| Spent.
Arguments Spent {A}.

#[export] Instance scripted_next {A} : Iterator A (scripted A) := fun g =>
  match g with
  | Script (t :: rest) fin => (Token t, Script rest fin)
  | Script [] Exhausted => (End, Spent)
  | Script [] (Raised r) => (Raise r, Spent)
  | Spent => (End, Spent)
  end.

#[export] Instance scripted_anext {W A} : AsyncIterator W A (scripted A) := fun g w =>
  (next g, w).

(** An underlying sequence together with the number of pulls made on it. *)
Record counted (G : Type) := Counted { observed : G; pull_count : nat }.

#[export] Instance counted_next {A G} `{Iterator A G} : Iterator A (counted G) := fun c =>
  let (p, g') := next (observed c) in
  (p, {| observed := g'; pull_count := S (pull_count c) |}).

#[export] Instance counted_anext {W A G} `{AsyncIterator W A G}
  : AsyncIterator W A (counted G) := fun c w =>
  let '(p, g', w') := anext (observed c) w in
  (p, {| observed := g'; pull_count := S (pull_count c) |}, w').

(** ** The event loop of the suspending variants *)

(** [random.uniform(lo, hi)] on a random source [R]. *)
Class RandomSource (R : Type) := uniform : Q -> Q -> R -> Q * R.

(** What the suspending code can touch: the random source, and the delays
    it has slept for, oldest first. *)
Record event_loop (R : Type) := { rng : R; slept : list Q }.

(** [await asyncio.sleep(random.uniform(lo, hi))] *)
Definition sleep_uniform {R} `{RandomSource R} (lo hi : Q) (w : event_loop R) : event_loop R :=
  let (d, r') := uniform lo hi (rng w) in
  {| rng := r'; slept := slept w ++ [d] |}.

(** The event loop after [n] such sleeps in a row. *)
Fixpoint paced {R} `{RandomSource R} (lo hi : Q) (n : nat) (w : event_loop R) : event_loop R :=
  match n with
  | O => w
  | S n' => paced lo hi n' (sleep_uniform lo hi w)
  end.

(** ** The baseline sequences *)

Definition fallback : list str := [lit "No"; lit "prompt"; lit "provided"].

(** [prompt.split() if prompt else ["No", "prompt", "provided"]]; the prompt is
    a [str] or [None]. *)
Definition prompt_tokens (prompt : option str) : list str :=
  match prompt with
  | Some s => if truthy s then split s else fallback
  | None => fallback
  end.

(** The generator object of [sync_stream]: not started yet, inside the loop
    with the tokens still to come, or returned. *)
Inductive sync_gen :=
| SyncCreated (prompt : option str)
| SyncLoop (tokens : list str)
| SyncFinished.

Definition sync_stream (prompt : option str) : sync_gen := SyncCreated prompt.

Definition sync_loop (tokens : list str) : pull str * sync_gen :=
  match tokens with
  | [] => (End, SyncFinished)
  | token :: rest => (Token token, SyncLoop rest)
  end.

#[export] Instance sync_stream_next : Iterator str sync_gen := fun g =>
  match g with
  | SyncCreated prompt => sync_loop (prompt_tokens prompt)
  | SyncLoop tokens => sync_loop tokens
  | SyncFinished => (End, SyncFinished)
  end.

(** The generator object of [async_stream]; it sleeps before each token. *)
Inductive async_gen :=
| AsyncCreated (prompt : option str)
| AsyncLoop (tokens : list str)
| AsyncFinished.

Definition async_stream (prompt : option str) : async_gen := AsyncCreated prompt.

Definition async_loop {R} `{RandomSource R} (tokens : list str) (w : event_loop R)
  : pull str * async_gen * event_loop R :=
  match tokens with
  | [] => (End, AsyncFinished, w)
  | token :: rest => (Token token, AsyncLoop rest, sleep_uniform (1 # 2) 1 w)
  end.

#[export] Instance async_stream_anext {R} `{RandomSource R}
  : AsyncIterator (event_loop R) str async_gen := fun g w =>
  match g with
  | AsyncCreated prompt => async_loop (prompt_tokens prompt) w
  | AsyncLoop tokens => async_loop tokens w
  | AsyncFinished => (End, AsyncFinished, w)
  end.

(** ** The aggregator *)

(** [list(g)] *)
Definition py_list {A G} `{Iterator A G} (fuel : nat) (g : G) : option (outcome (list A)) :=
  match drain fuel g with
  | None => None
  | Some (tokens, Exhausted, _) => Some (Ret tokens)
  | Some (_, Raised r, _) => Some (Throw r)
  end.

(** The body of [collect_sync_response] over the sequence it drains:
    [tokens = list(g); return " ".join(tokens)]. *)
Definition aggregate_sync {G} `{Iterator str G} (fuel : nat) (g : G) : option (outcome str) :=
  match py_list fuel g with
  | None => None
  | Some m => Some (tokens <- m ;; Ret (join (lit " ") tokens))
  end.

Definition collect_sync_response (fuel : nat) (prompt : option str) : option (outcome str) :=
  aggregate_sync fuel (sync_stream prompt).

(** The body of [collect_async_response] over the sequence it drains: the
    [async for] appends each token, then the tokens are joined. *)
Definition aggregate_async {W G} `{AsyncIterator W str G} (fuel : nat) (g : G) (w : W)
  : option (outcome str * W) :=
  match adrain fuel g w with
  | None => None
  | Some (tokens, Exhausted, _, w') => Some (Ret (join (lit " ") tokens), w')
  | Some (_, Raised r, _, w') => Some (Throw r, w')
  end.

Definition collect_async_response {R} `{RandomSource R} (fuel : nat) (prompt : option str)
  (w : event_loop R) : option (outcome str * event_loop R) :=
  aggregate_async fuel (async_stream prompt) w.

(** ** The transform wrapper *)

(** Whether a generator's frame can still run. *)
Inductive status := Suspended | Finished.

(** The generator object of [transform_sync_stream]: its two arguments, its
    status, and (for the proofs only, never read) the tokens
    [transform_func] has been called on so far. *)
Record transform_gen (A B G : Type) := {
  tr_generator : G;
  tr_func : A -> outcome B;
  tr_status : status;
  tr_calls : list A
}.

Definition transform_sync_stream {A B G} (generator : G) (transform_func : A -> outcome B)
  : transform_gen A B G :=
  {| tr_generator := generator; tr_func := transform_func;
     tr_status := Suspended; tr_calls := [] |}.

#[export] Instance transform_sync_next {A B G} `{Iterator A G}
  : Iterator B (transform_gen A B G) := fun fr =>
  match tr_status fr with
  | Finished => (End, fr)
  | Suspended =>
      let stop g' calls :=
        {| tr_generator := g'; tr_func := tr_func fr; tr_status := Finished; tr_calls := calls |} in
      match next (tr_generator fr) with
      | (Token token, g') =>
          let calls := tr_calls fr ++ [token] in
          match tr_func fr token with
          | Ret v => (Token v, {| tr_generator := g'; tr_func := tr_func fr;
                                  tr_status := Suspended; tr_calls := calls |})
          | Throw r => (Raise r, stop g' calls)
          end
      | (End, g') => (End, stop g' (tr_calls fr))
      | (Raise r, g') => (Raise r, stop g' (tr_calls fr))
      end
  end.

(** The generator object of [transform_async_stream]. *)
Record transform_agen (A B G : Type) := {
  atr_generator : G;
  atr_func : A -> outcome B;
  atr_status : status;
  atr_calls : list A
}.

Definition transform_async_stream {A B G} (async_generator : G)
  (transform_func : A -> outcome B) : transform_agen A B G :=
  {| atr_generator := async_generator; atr_func := transform_func;
     atr_status := Suspended; atr_calls := [] |}.

#[export] Instance transform_async_anext {W A B G} `{AsyncIterator W A G}
  : AsyncIterator W B (transform_agen A B G) := fun fr w =>
  match atr_status fr with
  | Finished => (End, fr, w)
  | Suspended =>
      let stop g' calls :=
        {| atr_generator := g'; atr_func := atr_func fr; atr_status := Finished;
           atr_calls := calls |} in
      match anext (atr_generator fr) w with
      | (Token token, g', w') =>
          let calls := atr_calls fr ++ [token] in
          match atr_func fr token with
          | Ret v => (Token v, {| atr_generator := g'; atr_func := atr_func fr;
                                  atr_status := Suspended; atr_calls := calls |}, w')
          | Throw r => (Raise r, stop g' calls, w')
          end
      | (End, g', w') => (End, stop g' (atr_calls fr), w')
      | (Raise r, g', w') => (Raise r, stop g' (atr_calls fr), w')
      end
  end.

(** ** The safe wrapper *)

(** Where the frame of [safe_sync_stream] is suspended: inside the [try]
    (before the first pull or at [yield token]), at the [yield on_error(e)] of
    the handler, or nowhere any more. *)
Inductive safe_phase := InTry | InHandler | Returned.

Record safe_gen (A G : Type) := {
  sf_generator : G;
  sf_on_error : option (exn -> outcome A);
  sf_phase : safe_phase
}.

Definition safe_sync_stream {A G} (generator : G) (on_error : option (exn -> outcome A))
  : safe_gen A G :=
  {| sf_generator := generator; sf_on_error := on_error; sf_phase := InTry |}.

#[export] Instance safe_sync_next {A G} `{Iterator A G} : Iterator A (safe_gen A G) := fun fr =>
  let at_phase ph g' :=
    {| sf_generator := g'; sf_on_error := sf_on_error fr; sf_phase := ph |} in
  match sf_phase fr with
  | Returned => (End, fr)
  | InHandler => (End, at_phase Returned (sf_generator fr))
  | InTry =>
      match next (sf_generator fr) with
      | (Token token, g') => (Token token, at_phase InTry g')
      | (End, g') => (End, at_phase Returned g')
      | (Raise (Failure e), g') =>
          (* except Exception as e *)
          match sf_on_error fr with
          | Some on_error =>
              match on_error e with
              | Ret v => (Token v, at_phase InHandler g')
              | Throw r => (Raise r, at_phase Returned g')
              end
          | None => (Raise (Failure e), at_phase Returned g')
          end
      | (Raise (Signal s), g') => (Raise (Signal s), at_phase Returned g')
      end
  end.

Record safe_agen (A G : Type) := {
  asf_generator : G;
  asf_on_error : option (exn -> outcome A);
  asf_phase : safe_phase
}.

Definition safe_async_stream {A G} (async_gen : G) (on_error : option (exn -> outcome A))
  : safe_agen A G :=
  {| asf_generator := async_gen; asf_on_error := on_error; asf_phase := InTry |}.

#[export] Instance safe_async_anext {W A G} `{AsyncIterator W A G}
  : AsyncIterator W A (safe_agen A G) := fun fr w =>
  let at_phase ph g' :=
    {| asf_generator := g'; asf_on_error := asf_on_error fr; asf_phase := ph |} in
  match asf_phase fr with
  | Returned => (End, fr, w)
  | InHandler => (End, at_phase Returned (asf_generator fr), w)
  | InTry =>
      match anext (asf_generator fr) w with
      | (Token token, g', w') => (Token token, at_phase InTry g', w')
      | (End, g', w') => (End, at_phase Returned g', w')
      | (Raise (Failure e), g', w') =>
          match asf_on_error fr with
          | Some on_error =>
              match on_error e with
              | Ret v => (Token v, at_phase InHandler g', w')
              | Throw r => (Raise r, at_phase Returned g', w')
              end
          | None => (Raise (Failure e), at_phase Returned g', w')
          end
      | (Raise (Signal s), g', w') => (Raise (Signal s), at_phase Returned g', w')
      end
  end.

(** ** Calling a method *)

Definition type_error (msg : string) : raised :=
  Failure {| exn_type := "TypeError"; exn_msg := lit msg |}.

(** Binding the keyword arguments of a call to a function whose parameters
    are all plain named ones ([params]); [bound] are the parameters already
    filled by position.  A keyword that names no parameter, or one already
    filled, is a [TypeError], raised by the call itself. *)
Fixpoint bind_keywords {V} (fname : string) (params bound : list string)
  (kwargs : list (string * V)) : outcome unit :=
  match kwargs with
  | [] => Ret tt
  | (k, _) :: rest =>
      if existsb (String.eqb k) bound
      then Throw (type_error (fname ++ "() got multiple values for argument '" ++ k ++ "'"))
      else if existsb (String.eqb k) params
      then bind_keywords fname params (k :: bound) rest
      else Throw (type_error (fname ++ "() got an unexpected keyword argument '" ++ k ++ "'"))
  end.

(** ** The unified client *)

Module LLMStreamingClient.

(** [def stream_sync(self, prompt)] *)
Definition stream_sync (prompt : option str) : sync_gen := sync_stream prompt.

(** [def complete_sync(self, prompt)] *)
Definition complete_sync (fuel : nat) (prompt : option str) : option (outcome str) :=
  collect_sync_response fuel prompt.

(** The generator object of [astream]: it opens [async_stream(prompt)] at
    its first pull and forwards each token. *)
Inductive astream_gen :=
| AstreamCreated (prompt : option str)
| AstreamLoop (inner : async_gen)
| AstreamFinished.

(** [async def astream(self, prompt)] *)
Definition astream (prompt : option str) : astream_gen := AstreamCreated prompt.

Definition astream_loop {R} `{RandomSource R} (inner : async_gen) (w : event_loop R)
  : pull str * astream_gen * event_loop R :=
  match anext inner w with
  | (Token token, inner', w') => (Token token, AstreamLoop inner', w')
  | (End, _, w') => (End, AstreamFinished, w')
  | (Raise r, _, w') => (Raise r, AstreamFinished, w')
  end.

#[global] Instance astream_anext {R} `{RandomSource R}
  : AsyncIterator (event_loop R) str astream_gen := fun g w =>
  match g with
  | AstreamCreated prompt => astream_loop (async_stream prompt) w
  | AstreamLoop inner => astream_loop inner w
  | AstreamFinished => (End, AstreamFinished, w)
  end.

(** [async def acomplete(self, prompt)] *)
Definition acomplete {R} `{RandomSource R} (fuel : nat) (prompt : option str)
  (w : event_loop R) : option (outcome str * event_loop R) :=
  collect_async_response fuel prompt w.

(** The call [client.stream_sync(prompt, **kwargs)]: the one parameter after
    [self] is [prompt], filled by position. *)
Definition call_stream_sync {V} (prompt : option str) (kwargs : list (string * V))
  : outcome sync_gen :=
  _ <- bind_keywords "stream_sync" ["prompt"%string] ["prompt"%string] kwargs ;;
  Ret (stream_sync prompt).

(** The call [client.astream(prompt, **kwargs)] *)
Definition call_astream {V} (prompt : option str) (kwargs : list (string * V))
  : outcome astream_gen :=
  _ <- bind_keywords "astream" ["prompt"%string] ["prompt"%string] kwargs ;;
  Ret (astream prompt).

End LLMStreamingClient.

(** ** The simulated LLM *)

(** The float literals [0.05] and [0.10], exactly. *)
Definition llm_delay_lo : Q := 3602879701896397 # 72057594037927936.
Definition llm_delay_hi : Q := 3602879701896397 # 36028797018963968.

(** The static response of [simulate_llm_response]. *)
Definition llm_tokens : list str :=
  [lit "Why"; lit "did"; lit "the"; lit "chicken"; lit "cross"; lit "the"; lit "road"; lit "?"].

(** The generator object of [simulate_llm_response]; the prompt is kept but
    never read. *)
Inductive llm_gen :=
| LlmCreated (prompt : option str)
| LlmLoop (tokens : list str)
| LlmFinished.

Definition simulate_llm_response (prompt : option str) : llm_gen := LlmCreated prompt.

Definition llm_loop {R} `{RandomSource R} (tokens : list str) (w : event_loop R)
  : pull str * llm_gen * event_loop R :=
  match tokens with
  | [] => (End, LlmFinished, w)
  | token :: rest => (Token token, LlmLoop rest, sleep_uniform llm_delay_lo llm_delay_hi w)
  end.

#[export] Instance simulate_llm_anext {R} `{RandomSource R}
  : AsyncIterator (event_loop R) str llm_gen := fun g w =>
  match g with
  | LlmCreated _ => llm_loop llm_tokens w
  | LlmLoop tokens => llm_loop tokens w
  | LlmFinished => (End, LlmFinished, w)
  end.

(** [random.uniform] keeps to its bounds. *)
Definition within_bounds {R} `{RandomSource R} : Prop :=
  forall (lo hi : Q) (r : R),
    (lo <= hi)%Q -> (lo <= fst (uniform lo hi r))%Q /\ (fst (uniform lo hi r) <= hi)%Q.

(** ** Fixtures of test_client.py *)

(** [failing_sync_stream]: two tokens, then [raise Exception("Sync failure")]. *)
Definition failing_sync_stream : scripted str :=
  Script [lit "Sync1"; lit "Sync2"]
         (Raised (Failure {| exn_type := "Exception"; exn_msg := lit "Sync failure" |})).

(** [failing_async_stream] *)
Definition failing_async_stream : scripted str :=
  Script [lit "Async1"; lit "Async2"]
         (Raised (Failure {| exn_type := "Exception"; exn_msg := lit "Async failure" |})).

(** The spec's example: ["A", "B"], then a failure with message "X". *)
Definition failing_ab : scripted str :=
  Script [lit "A"; lit "B"]
         (Raised (Failure {| exn_type := "Exception"; exn_msg := lit "X" |})).

(** [on_error = lambda e: f"[ERROR: {str(e)}]"] *)
Definition error_token (e : exn) : outcome str :=
  Ret (lit "[ERROR: " ++ exn_msg e ++ lit "]").

(** [to_upper] of the tests, on ASCII letters. *)
Definition to_upper (token : str) : str :=
  map (fun c => if ((97 <=? c) && (c <=? 122))%N then (c - 32)%N else c) token.


(** A random source for running the suspending code: it alternates between
    the two bounds. *)
#[export] Instance alternating : RandomSource nat := fun lo hi n =>
  (if Nat.even n then lo else hi, S n).

Definition idle_loop : event_loop nat := {| rng := 0; slept := [] |}.

(** * Properties *)

Unset Implicit Arguments.

(** ** Splitting and joining *)

Example split_hello : split (lit "Hello, world!") = [lit "Hello,"; lit "world!"].
Proof. reflexivity. Qed.

Example split_runs : split (lit "  a   b ") = [lit "a"; lit "b"].
Proof. reflexivity. Qed.

Example join_test : join (lit " ") [lit "This"; lit "is"; lit "a"; lit "test"] = lit "This is a test".
Proof. reflexivity. Qed.

Example normalized_yes : single_space_normalized (lit "This is a test") = true.
Proof. reflexivity. Qed.

Example normalized_no : single_space_normalized (lit "a  b") = false.
Proof. reflexivity. Qed.

Lemma is_word_spec t : is_word t = true <-> t <> [] /\ no_space t = true.
Proof.
  unfold is_word, no_space. rewrite andb_true_iff.
  destruct t; simpl; intuition congruence.
Qed.

Lemma no_space_snoc w c :
  no_space w = true -> isspace c = false -> no_space (w ++ [c]) = true.
Proof.
  unfold no_space. intros Hw Hc. rewrite forallb_app, Hw. simpl. now rewrite Hc.
Qed.

Lemma is_word_snoc w c :
  no_space w = true -> isspace c = false -> is_word (w ++ [c]) = true.
Proof.
  intros Hw Hc. apply is_word_spec. split.
  - now destruct w.
  - now apply no_space_snoc.
Qed.

Lemma flush_word w : w <> [] -> flush w = [w].
Proof. now destruct w. Qed.

(** Every word [split] produces is non-empty and free of whitespace. *)
Lemma split_ws_words s : forall w t,
  no_space w = true -> In t (split_ws w s) -> is_word t = true.
Proof.
  induction s as [|c rest IH]; intros w t Hw Hin; simpl in Hin.
  - destruct w; simpl in Hin; [contradiction|].
    destruct Hin as [<-|[]]. now apply is_word_spec.
  - destruct (isspace c) eqn:Hc.
    + apply in_app_or in Hin. destruct Hin as [Hin|Hin].
      * destruct w; simpl in Hin; [contradiction|].
        destruct Hin as [<-|[]]. now apply is_word_spec.
      * now apply (IH [] t).
    + apply (IH (w ++ [c]) t); [now apply no_space_snoc | exact Hin].
Qed.

Lemma split_words s t : In t (split s) -> is_word t = true.
Proof. now apply split_ws_words. Qed.

(** A run of whitespace only closes the word in progress. *)
Lemma split_ws_all_space s : forall w,
  all_space s = true -> split_ws w s = flush w.
Proof.
  induction s as [|c rest IH]; intros w Hs; simpl in *; [reflexivity|].
  apply andb_true_iff in Hs as [Hc Hrest]. rewrite Hc, (IH [] Hrest).
  simpl. apply app_nil_r.
Qed.

(** Characters that are not whitespace extend the word in progress. *)
Lemma split_ws_prefix t : forall w s,
  no_space t = true -> split_ws w (t ++ s) = split_ws (w ++ t) s.
Proof.
  induction t as [|c t IH]; intros w s Ht; simpl in *.
  - now rewrite app_nil_r.
  - apply andb_true_iff in Ht as [Hc Ht]. apply negb_true_iff in Hc.
    rewrite Hc, (IH _ _ Ht), <- app_assoc. reflexivity.
Qed.

(** [split] computes the cut at whitespace runs, and nothing else does. *)
Lemma ws_split_unique s ts : ws_split s ts -> split s = ts.
Proof.
  unfold split. induction 1 as [s Hs | c s ts Hc _ IH | t s ts Ht Hnext _ IH].
  - now rewrite split_ws_all_space.
  - simpl. now rewrite Hc.
  - apply is_word_spec in Ht as [Hne Ht].
    rewrite (split_ws_prefix _ _ _ Ht). simpl.
    destruct s as [|c rest]; simpl in *.
    + subst ts. now apply flush_word.
    + rewrite Hnext in *. rewrite (flush_word _ Hne). simpl. now f_equal.
Qed.

Lemma ws_split_complete s :
  ws_split s (split_ws [] s) /\
  forall w, is_word w = true -> ws_split (w ++ s) (split_ws w s).
Proof.
  induction s as [|c rest [IH0 IHw]].
  - split.
    + now apply ws_done.
    + intros w Hw. simpl. rewrite flush_word by (apply is_word_spec in Hw; tauto).
      now apply ws_word; [| |apply ws_done].
  - simpl. destruct (isspace c) eqn:Hc.
    + assert (Hskip : ws_split (c :: rest) (split_ws [] rest)) by now apply ws_skip.
      split; [exact Hskip|].
      intros w Hw. rewrite flush_word by (apply is_word_spec in Hw; tauto).
      simpl. now apply ws_word.
    + split.
      * apply (IHw [c]). unfold is_word. simpl. now rewrite Hc.
      * intros w Hw. replace (w ++ c :: rest) with ((w ++ [c]) ++ rest)
          by now rewrite <- app_assoc.
        apply IHw. apply is_word_snoc; [|exact Hc].
        apply is_word_spec in Hw. tauto.
Qed.

Lemma ws_split_split s : ws_split s (split s).
Proof. apply ws_split_complete. Qed.

Lemma join_cons sep x rest :
  rest <> [] -> join sep (x :: rest) = x ++ sep ++ join sep rest.
Proof. now destruct rest. Qed.

Lemma join_nil_iff sep (ts : list str) :
  (forall t, In t ts -> t <> []) -> join sep ts = [] <-> ts = [].
Proof.
  intros Hts. split; [|now intros ->].
  destruct ts as [|t rest]; [reflexivity|]. intros Hj. exfalso.
  assert (Ht : t <> []) by (apply Hts; now left).
  destruct t; [congruence|]. destruct rest; discriminate.
Qed.

(** On single-space-normalized text joining undoes splitting. *)
Lemma join_split_ws s :
  (forall w, w <> [] -> normalized_from false s = true ->
             join [space] (split_ws w s) = w ++ s) /\
  (normalized_from true s = true -> join [space] (split_ws [] s) = s).
Proof.
  induction s as [|c rest [IHw IH0]]; simpl.
  - split; [|discriminate]. intros w Hw _. rewrite (flush_word _ Hw). simpl.
    now rewrite app_nil_r.
  - destruct (isspace c) eqn:Hc.
    + split; [|rewrite andb_false_r; discriminate].
      intros w Hw Hn. rewrite andb_true_r in Hn.
      apply andb_true_iff in Hn as [Hsp Hn]. apply N.eqb_eq in Hsp. subst c.
      rewrite (flush_word _ Hw). simpl app.
      assert (Hne : split_ws [] rest <> []).
      { intros E. specialize (IH0 Hn). rewrite E in IH0. simpl in IH0.
        subst rest. discriminate. }
      rewrite (join_cons _ _ _ Hne), (IH0 Hn). reflexivity.
    + split.
      * intros w Hw Hn. rewrite IHw; [now rewrite <- app_assoc | now destruct w | exact Hn].
      * intros Hn. rewrite IHw; [reflexivity | discriminate | exact Hn].
Qed.

Lemma join_split s :
  single_space_normalized s = true -> join (lit " ") (split s) = s.
Proof.
  unfold single_space_normalized. intros H. apply andb_true_iff in H as [_ H].
  now apply join_split_ws.
Qed.

(** Single-space-normalized text is exactly a join of words by one space. *)
Lemma normalized_join ts :
  ts <> [] -> (forall t, In t ts -> is_word t = true) ->
  single_space_normalized (join (lit " ") ts) = true.
Proof.
  intros Hne Hts.
  assert (Hfrom : forall t, no_space t = true -> forall b s,
             normalized_from false s = true \/ (s = [] /\ t <> []) ->
             (t <> [] \/ b = false) ->
             normalized_from b (t ++ s) = true).
  { induction t as [|c t IHt]; intros Ht b s Hs Hb; simpl in *.
    - destruct Hs as [Hs|[_ Hs]]; [|congruence].
      destruct Hb as [Hb|Hb]; [congruence|now subst b].
    - apply andb_true_iff in Ht as [Hc Ht]. apply negb_true_iff in Hc. rewrite Hc.
      apply IHt; [exact Ht| |now right].
      destruct Hs as [Hs|[-> _]]; [now left|].
      destruct t; [left; reflexivity|right; split; [reflexivity|discriminate]]. }
  assert (Hall : normalized_from true (join (lit " ") ts) = true).
  { induction ts as [|t rest IH]; [congruence|].
    assert (Ht : is_word t = true) by (apply Hts; now left).
    apply is_word_spec in Ht as [Htne Ht].
    destruct rest as [|t' rest'].
    - simpl. rewrite <- (app_nil_r t). apply Hfrom; auto.
    - rewrite join_cons by discriminate. apply Hfrom; auto. left.
      change (normalized_from true (join (lit " ") (t' :: rest')) = true).
      apply IH; [discriminate|].
      intros u Hu. apply Hts. now right. }
  unfold single_space_normalized. rewrite Hall, andb_true_r.
  destruct ts as [|t rest]; [congruence|].
  assert (Ht : is_word t = true) by (apply Hts; now left).
  destruct t; [discriminate|]. destruct rest; reflexivity.
Qed.

(** ** Iterations *)

Section Blocking.
Context {A G : Type} `{I : Iterator A G}.

Lemma emits_drain g ts fin gf :
  emits g ts fin gf -> forall fuel, length ts < fuel -> drain fuel g = Some (ts, fin, gf).
Proof.
  induction 1 as [g gf E | g r gf E | g t g' ts fin gf E _ IH];
    intros [|fuel] Hfuel; simpl in *; try lia; rewrite E; try reflexivity.
  rewrite IH by lia. reflexivity.
Qed.

Lemma drain_emits fuel : forall g ts fin gf,
  drain fuel g = Some (ts, fin, gf) -> emits g ts fin gf.
Proof.
  induction fuel as [|fuel IH]; intros g ts fin gf; simpl; [discriminate|].
  destruct (next g) as [[t| |r] g'] eqn:E.
  - destruct (drain fuel g') as [[[ts' fin'] gf']|] eqn:D; [|discriminate].
    intros [= <- <- <-]. eapply emits_token; [exact E|]. now apply IH.
  - intros [= <- <- <-]. now apply emits_end.
  - intros [= <- <- <-]. now apply emits_raise.
Qed.

Lemma emits_returns g ts fin gf :
  emits g ts fin gf -> returns (fun fuel => drain fuel g) (ts, fin, gf).
Proof.
  intros H. exists (S (length ts)). intros fuel Hfuel.
  apply (emits_drain _ _ _ _ H). lia.
Qed.

(** An iteration has one course only. *)
Lemma emits_unique g ts fin gf :
  emits g ts fin gf -> forall ts' fin' gf',
  emits g ts' fin' gf' -> ts' = ts /\ fin' = fin /\ gf' = gf.
Proof.
  induction 1 as [g gf E | g r gf E | g t g' ts fin gf E _ IH];
    intros ts' fin' gf' H'; inversion H'; subst;
    match goal with
    | E' : next g = _ |- _ => rewrite E in E'; inversion E'; subst
    end; auto.
  match goal with
  | Hrest : emits _ _ _ _ |- _ => destruct (IH _ _ _ Hrest) as (-> & -> & ->)
  end. auto.
Qed.

(** The first pulls of an iteration are its first tokens. *)
Lemma emits_pulls g ts fin gf :
  emits g ts fin gf -> forall k, k <= length ts ->
  fst (pulls k g) = map Token (firstn k ts).
Proof.
  induction 1 as [g gf E | g r gf E | g t g' ts fin gf E _ IH];
    intros [|k] Hk; simpl in *; try lia; try reflexivity.
  rewrite E. specialize (IH k ltac:(lia)).
  destruct (pulls k g') as [ps gk]. simpl in *. now rewrite IH.
Qed.

(** Counting the pulls: one per token, and one for the stop. *)
Lemma counted_emits g ts fin gf :
  emits g ts fin gf -> forall n,
  emits (Counted g n) ts fin (Counted gf (n + S (length ts))).
Proof.
  induction 1 as [g gf E | g r gf E | g t g' ts fin gf E _ IH]; intros n.
  - apply emits_end. unfold next, counted_next. simpl. fold (next g). rewrite E.
    do 2 f_equal. simpl. lia.
  - apply emits_raise. unfold next, counted_next. simpl. fold (next g). rewrite E.
    do 2 f_equal. simpl. lia.
  - eapply emits_token.
    + unfold next, counted_next. simpl. fold (next g). rewrite E. reflexivity.
    + replace (n + S (length (t :: ts))) with (S n + S (length ts)) by (simpl; lia).
      apply IH.
Qed.
End Blocking.

Section Suspending.
Context {W A G : Type} `{I : AsyncIterator W A G}.

Lemma aemits_adrain g w ts fin gf wf :
  aemits g w ts fin gf wf ->
  forall fuel, length ts < fuel -> adrain fuel g w = Some (ts, fin, gf, wf).
Proof.
  induction 1 as [g w gf wf E | g w r gf wf E | g w t g' w' ts fin gf wf E _ IH];
    intros [|fuel] Hfuel; simpl in *; try lia; rewrite E; try reflexivity.
  rewrite IH by lia. reflexivity.
Qed.

Lemma adrain_aemits fuel : forall g w ts fin gf wf,
  adrain fuel g w = Some (ts, fin, gf, wf) -> aemits g w ts fin gf wf.
Proof.
  induction fuel as [|fuel IH]; intros g w ts fin gf wf; simpl; [discriminate|].
  destruct (anext g w) as [[[t| |r] g'] w'] eqn:E.
  - destruct (adrain fuel g' w') as [[[[ts' fin'] gf'] wf']|] eqn:D; [|discriminate].
    intros [= <- <- <- <-]. eapply aemits_token; [exact E|]. now apply IH.
  - intros [= <- <- <- <-]. now apply aemits_end.
  - intros [= <- <- <- <-]. now apply aemits_raise.
Qed.

Lemma aemits_returns g w ts fin gf wf :
  aemits g w ts fin gf wf -> returns (fun fuel => adrain fuel g w) (ts, fin, gf, wf).
Proof.
  intros H. exists (S (length ts)). intros fuel Hfuel.
  apply (aemits_adrain _ _ _ _ _ _ H). lia.
Qed.

Lemma aemits_unique g w ts fin gf wf :
  aemits g w ts fin gf wf -> forall ts' fin' gf' wf',
  aemits g w ts' fin' gf' wf' -> ts' = ts /\ fin' = fin /\ gf' = gf /\ wf' = wf.
Proof.
  induction 1 as [g w gf wf E | g w r gf wf E | g w t g' w' ts fin gf wf E _ IH];
    intros ts' fin' gf' wf' H'; inversion H'; subst;
    match goal with
    | E' : anext g w = _ |- _ => rewrite E in E'; inversion E'; subst
    end; auto.
  match goal with
  | Hrest : aemits _ _ _ _ _ _ |- _ => destruct (IH _ _ _ _ Hrest) as (-> & -> & -> & ->)
  end. auto.
Qed.

Lemma aemits_apulls g w ts fin gf wf :
  aemits g w ts fin gf wf -> forall k, k <= length ts ->
  fst (fst (apulls k g w)) = map Token (firstn k ts).
Proof.
  induction 1 as [g w gf wf E | g w r gf wf E | g w t g' w' ts fin gf wf E _ IH];
    intros [|k] Hk; simpl in *; try lia; try reflexivity.
  rewrite E. specialize (IH k ltac:(lia)).
  destruct (apulls k g' w') as [[ps gk] wk]. simpl in *. now rewrite IH.
Qed.

Lemma counted_aemits g w ts fin gf wf :
  aemits g w ts fin gf wf -> forall n,
  aemits (Counted g n) w ts fin (Counted gf (n + S (length ts))) wf.
Proof.
  induction 1 as [g w gf wf E | g w r gf wf E | g w t g' w' ts fin gf wf E _ IH];
    intros n.
  - apply aemits_end. unfold anext, counted_anext. simpl. fold (anext g w). rewrite E.
    do 3 f_equal. simpl. lia.
  - apply aemits_raise. unfold anext, counted_anext. simpl. fold (anext g w). rewrite E.
    do 3 f_equal. simpl. lia.
  - eapply aemits_token.
    + unfold anext, counted_anext. simpl. fold (anext g w). rewrite E. reflexivity.
    + replace (n + S (length (t :: ts))) with (S n + S (length ts)) by (simpl; lia).
      apply IH.
Qed.
End Suspending.

(** A caller-built sequence runs as scripted, in either mode. *)
Lemma scripted_emits {A} (ts : list A) fin : emits (Script ts fin) ts fin Spent.
Proof.
  induction ts as [|t ts IH].
  - destruct fin; [now apply emits_end | now apply emits_raise].
  - now eapply emits_token.
Qed.

Lemma scripted_aemits {W A} (ts : list A) fin (w : W) :
  aemits (Script ts fin) w ts fin Spent w.
Proof.
  induction ts as [|t ts IH].
  - destruct fin; [now apply aemits_end | now apply aemits_raise].
  - now eapply aemits_token.
Qed.

(** ** The baseline sequences *)

Lemma sync_loop_emits tokens : emits (SyncLoop tokens) tokens Exhausted SyncFinished.
Proof.
  induction tokens as [|t rest IH]; [now apply emits_end | now eapply emits_token].
Qed.

Lemma sync_stream_emits prompt :
  emits (sync_stream prompt) (prompt_tokens prompt) Exhausted SyncFinished.
Proof.
  unfold sync_stream. destruct (prompt_tokens prompt) as [|t rest] eqn:E.
  - apply emits_end. unfold next, sync_stream_next. now rewrite E.
  - eapply emits_token; [|apply sync_loop_emits].
    unfold next, sync_stream_next. now rewrite E.
Qed.

Section Paced.
Context {R : Type} `{RS : RandomSource R}.

Lemma async_loop_aemits tokens : forall w : event_loop R,
  aemits (AsyncLoop tokens) w tokens Exhausted AsyncFinished
         (paced (1 # 2) 1 (length tokens) w).
Proof.
  induction tokens as [|t rest IH]; intros w; [now apply aemits_end|].
  eapply aemits_token; [reflexivity|].
  exact (IH (sleep_uniform (1 # 2) 1 w)).
Qed.

Lemma async_stream_aemits prompt (w : event_loop R) :
  aemits (async_stream prompt) w (prompt_tokens prompt) Exhausted AsyncFinished
         (paced (1 # 2) 1 (length (prompt_tokens prompt)) w).
Proof.
  unfold async_stream. destruct (prompt_tokens prompt) as [|t rest] eqn:E.
  - apply aemits_end. unfold anext, async_stream_anext. now rewrite E.
  - eapply aemits_token.
    + unfold anext, async_stream_anext. rewrite E. reflexivity.
    + exact (async_loop_aemits rest (sleep_uniform (1 # 2) 1 w)).
Qed.

(** [astream] forwards what [async_stream] produces. *)
Lemma astream_loop_aemits inner : forall (w : event_loop R) (ts : list str) gf wf,
  aemits inner w ts Exhausted gf wf ->
  aemits (LLMStreamingClient.AstreamLoop inner) w ts Exhausted
         LLMStreamingClient.AstreamFinished wf.
Proof.
  intros w ts gf wf H. remember Exhausted as fin eqn:Efin.
  induction H as [g w gf wf E | g w r gf wf E | g w t g' w' ts fin gf wf E _ IH];
    try discriminate.
  - apply aemits_end. unfold anext, LLMStreamingClient.astream_anext,
      LLMStreamingClient.astream_loop. now rewrite E.
  - eapply aemits_token; [|now apply IH].
    unfold anext at 1, LLMStreamingClient.astream_anext,
      LLMStreamingClient.astream_loop. now rewrite E.
Qed.

Lemma astream_aemits prompt (w : event_loop R) :
  aemits (LLMStreamingClient.astream prompt) w (prompt_tokens prompt) Exhausted
         LLMStreamingClient.AstreamFinished
         (paced (1 # 2) 1 (length (prompt_tokens prompt)) w).
Proof.
  pose proof (async_stream_aemits prompt w) as H.
  unfold LLMStreamingClient.astream.
  inversion H as [? ? ? ? E Ets | | ? ? ? ? ? ? ? ? ? E Hrest Ets]; subst.
  - apply aemits_end. unfold anext, LLMStreamingClient.astream_anext,
      LLMStreamingClient.astream_loop. now rewrite E.
  - eapply aemits_token; [|eapply astream_loop_aemits; exact Hrest].
    unfold anext at 1, LLMStreamingClient.astream_anext,
      LLMStreamingClient.astream_loop. now rewrite E.
Qed.
End Paced.

(** ** The transform wrapper *)

Section TransformBlocking.
Context {A B G : Type} `{I : Iterator A G} (f : A -> B).

Local Abbreviation frame st g calls :=
  {| tr_generator := g; tr_func := pure_fn f; tr_status := st; tr_calls := calls |}.

Lemma transform_next_token g t g' calls :
  next g = (Token t, g') ->
  next (frame Suspended g calls) = (Token (f t), frame Suspended g' (calls ++ [t])).
Proof.
  intros E. unfold next at 1, transform_sync_next. simpl. now rewrite E.
Qed.

Lemma transform_emits_from g ts fin gf :
  emits g ts fin gf -> forall calls,
  emits (frame Suspended g calls) (map f ts) fin (frame Finished gf (calls ++ ts)).
Proof.
  induction 1 as [g gf E | g r gf E | g t g' ts fin gf E _ IH]; intros calls; simpl.
  - apply emits_end. unfold next at 1, transform_sync_next. simpl.
    now rewrite E, app_nil_r.
  - apply emits_raise. unfold next at 1, transform_sync_next. simpl.
    now rewrite E, app_nil_r.
  - eapply emits_token.
    + exact (transform_next_token _ _ _ _ E).
    + replace (calls ++ t :: ts) with ((calls ++ [t]) ++ ts) by now rewrite <- app_assoc.
      apply IH.
Qed.

(** After [k] pulls the function has seen the first [k] tokens and no more. *)
Lemma transform_pulls_from g ts fin gf :
  emits g ts fin gf -> forall k calls, k <= length ts ->
  exists gk, pulls k (frame Suspended g calls)
             = (map (fun t => Token (f t)) (firstn k ts),
                frame Suspended gk (calls ++ firstn k ts)).
Proof.
  induction 1 as [g gf E | g r gf E | g t g' ts fin gf E _ IH];
    intros [|k] calls Hk; simpl in Hk; try lia;
    try (exists g; simpl; now rewrite app_nil_r).
  destruct (IH k (calls ++ [t]) ltac:(lia)) as [gk Hgk]. exists gk.
  cbn [pulls]. rewrite (transform_next_token _ _ _ _ E), Hgk.
  simpl. now rewrite <- app_assoc.
Qed.
End TransformBlocking.

Section TransformSuspending.
Context {W A B G : Type} `{I : AsyncIterator W A G} (f : A -> B).

Local Abbreviation frame st g calls :=
  {| atr_generator := g; atr_func := pure_fn f; atr_status := st; atr_calls := calls |}.

Lemma transform_anext_token g w t g' w' calls :
  anext g w = (Token t, g', w') ->
  anext (frame Suspended g calls) w
  = (Token (f t), frame Suspended g' (calls ++ [t]), w').
Proof.
  intros E. unfold anext at 1, transform_async_anext. simpl. now rewrite E.
Qed.

Lemma transform_aemits_from g w ts fin gf wf :
  aemits g w ts fin gf wf -> forall calls,
  aemits (frame Suspended g calls) w (map f ts) fin (frame Finished gf (calls ++ ts)) wf.
Proof.
  induction 1 as [g w gf wf E | g w r gf wf E | g w t g' w' ts fin gf wf E _ IH];
    intros calls; simpl.
  - apply aemits_end. unfold anext at 1, transform_async_anext. simpl.
    now rewrite E, app_nil_r.
  - apply aemits_raise. unfold anext at 1, transform_async_anext. simpl.
    now rewrite E, app_nil_r.
  - eapply aemits_token.
    + exact (transform_anext_token _ _ _ _ _ _ E).
    + replace (calls ++ t :: ts) with ((calls ++ [t]) ++ ts) by now rewrite <- app_assoc.
      apply IH.
Qed.

Lemma transform_apulls_from g w ts fin gf wf :
  aemits g w ts fin gf wf -> forall k calls, k <= length ts ->
  exists gk wk, apulls k (frame Suspended g calls) w
             = (map (fun t => Token (f t)) (firstn k ts),
                frame Suspended gk (calls ++ firstn k ts), wk).
Proof.
  induction 1 as [g w gf wf E | g w r gf wf E | g w t g' w' ts fin gf wf E _ IH];
    intros [|k] calls Hk; simpl in Hk; try lia;
    try (exists g, w; simpl; now rewrite app_nil_r).
  destruct (IH k (calls ++ [t]) ltac:(lia)) as (gk & wk & Hgk). exists gk, wk.
  cbn [apulls]. rewrite (transform_anext_token _ _ _ _ _ _ E), Hgk.
  simpl. now rewrite <- app_assoc.
Qed.
End TransformSuspending.

Example transform_upper_test :
  drain 5 (transform_sync_stream (sync_stream (Some (lit "hello world"))) (pure_fn to_upper))
  = Some ([lit "HELLO"; lit "WORLD"], Exhausted,
          {| tr_generator := SyncFinished; tr_func := pure_fn to_upper;
             tr_status := Finished; tr_calls := [lit "hello"; lit "world"] |}).
Proof. reflexivity. Qed.

(** ** The safe wrapper *)

Section SafeBlocking.
Context {A G : Type} `{I : Iterator A G}.
Variable on_error : option (exn -> outcome A).

Local Abbreviation frame ph g :=
  {| sf_generator := g; sf_on_error := on_error; sf_phase := ph |}.

Lemma safe_next_token g t g' :
  next g = (Token t, g') -> next (frame InTry g) = (Token t, frame InTry g').
Proof. intros E. unfold next at 1, safe_sync_next. simpl. now rewrite E. Qed.

Lemma safe_next_end g g' :
  next g = (End, g') -> next (frame InTry g) = (End, frame Returned g').
Proof. intros E. unfold next at 1, safe_sync_next. simpl. now rewrite E. Qed.

(** STREAMING: tokens go through unchanged. *)
Lemma safe_emits_forward g ts fin gf :
  emits g ts fin gf -> forall rest fin' final,
  (forall glast, next glast = next_of fin gf ->
                 emits (frame InTry glast) rest fin' final) ->
  emits (frame InTry g) (ts ++ rest) fin' final.
Proof.
  induction 1 as [g gf E | g r gf E | g t g' ts fin gf E _ IH];
    intros rest fin' final Hlast; simpl.
  - now apply Hlast.
  - now apply Hlast.
  - eapply emits_token; [exact (safe_next_token _ _ _ E)|]. now apply IH.
Qed.

Lemma safe_emits_exhausted g ts gf :
  emits g ts Exhausted gf -> emits (frame InTry g) ts Exhausted (frame Returned gf).
Proof.
  intros H. rewrite <- (app_nil_r ts). apply (safe_emits_forward _ _ _ _ H).
  intros glast E. apply emits_end. now apply safe_next_end.
Qed.

(** A raise outside [Exception] is not the handler's business. *)
Lemma safe_emits_signal g ts s gf :
  emits g ts (Raised (Signal s)) gf ->
  emits (frame InTry g) ts (Raised (Signal s)) (frame Returned gf).
Proof.
  intros H. rewrite <- (app_nil_r ts). apply (safe_emits_forward _ _ _ _ H).
  intros glast E. apply emits_raise. unfold next at 1, safe_sync_next. simpl in *.
  now rewrite E.
Qed.

(** Once returned, the wrapper answers every pull itself. *)
Lemma safe_next_returned g : next (frame Returned g) = (End, frame Returned g).
Proof. reflexivity. Qed.

Lemma safe_returned_pulls g k :
  pulls k (frame Returned g) = (repeat End k, frame Returned g).
Proof.
  induction k as [|k IH]; [reflexivity|].
  cbn [pulls]. now rewrite safe_next_returned, IH.
Qed.
End SafeBlocking.

Section SafeBlockingPolicy.
Context {A G : Type} `{I : Iterator A G}.

(** STREAMING to RECOVERED: the policy's token, then the end. *)
Lemma safe_emits_recovered (h : exn -> outcome A) g ts e gf v :
  emits g ts (Raised (Failure e)) gf -> h e = Ret v ->
  emits (safe_sync_stream g (Some h)) (ts ++ [v]) Exhausted
        {| sf_generator := gf; sf_on_error := Some h; sf_phase := Returned |}.
Proof.
  intros H Hv. apply (safe_emits_forward _ _ _ _ _ H).
  intros glast E. simpl in E. eapply emits_token.
  - unfold next at 1, safe_sync_next. simpl. rewrite E, Hv. reflexivity.
  - now apply emits_end.
Qed.


(** STREAMING to FAILED: without a policy the raise goes on as it came. *)
Lemma safe_emits_reraised g ts r gf :
  emits g ts (Raised r) gf ->
  emits (safe_sync_stream g (@None (exn -> outcome A))) ts (Raised r)
        {| sf_generator := gf; sf_on_error := None; sf_phase := Returned |}.
Proof.
  intros H. rewrite <- (app_nil_r ts). apply (safe_emits_forward _ _ _ _ _ H).
  intros glast E. simpl in E. apply emits_raise.
  unfold next at 1, safe_sync_next. simpl. rewrite E. now destruct r.
Qed.
End SafeBlockingPolicy.

Section SafeSuspending.
Context {W A G : Type} `{I : AsyncIterator W A G}.
Variable on_error : option (exn -> outcome A).

Local Abbreviation frame ph g :=
  {| asf_generator := g; asf_on_error := on_error; asf_phase := ph |}.

Lemma safe_anext_token g w t g' w' :
  anext g w = (Token t, g', w') ->
  anext (frame InTry g) w = (Token t, frame InTry g', w').
Proof. intros E. unfold anext at 1, safe_async_anext. simpl. now rewrite E. Qed.

Lemma safe_anext_end g w g' w' :
  anext g w = (End, g', w') ->
  anext (frame InTry g) w = (End, frame Returned g', w').
Proof. intros E. unfold anext at 1, safe_async_anext. simpl. now rewrite E. Qed.

Lemma safe_aemits_forward g w ts fin gf wf :
  aemits g w ts fin gf wf -> forall rest fin' final wfinal,
  (forall glast wlast, anext glast wlast = (next_of fin gf, wf) ->
                 aemits (frame InTry glast) wlast rest fin' final wfinal) ->
  aemits (frame InTry g) w (ts ++ rest) fin' final wfinal.
Proof.
  induction 1 as [g w gf wf E | g w r gf wf E | g w t g' w' ts fin gf wf E _ IH];
    intros rest fin' final wfinal Hlast; simpl.
  - now apply Hlast.
  - now apply Hlast.
  - eapply aemits_token; [exact (safe_anext_token _ _ _ _ _ E)|]. now apply IH.
Qed.

Lemma safe_aemits_exhausted g w ts gf wf :
  aemits g w ts Exhausted gf wf ->
  aemits (frame InTry g) w ts Exhausted (frame Returned gf) wf.
Proof.
  intros H. rewrite <- (app_nil_r ts). apply (safe_aemits_forward _ _ _ _ _ _ H).
  intros glast wlast E. apply aemits_end. now apply safe_anext_end.
Qed.

Lemma safe_aemits_signal g w ts s gf wf :
  aemits g w ts (Raised (Signal s)) gf wf ->
  aemits (frame InTry g) w ts (Raised (Signal s)) (frame Returned gf) wf.
Proof.
  intros H. rewrite <- (app_nil_r ts). apply (safe_aemits_forward _ _ _ _ _ _ H).
  intros glast wlast E. apply aemits_raise. unfold anext at 1, safe_async_anext.
  simpl in *. now rewrite E.
Qed.

Lemma safe_anext_returned g w : anext (frame Returned g) w = (End, frame Returned g, w).
Proof. reflexivity. Qed.

Lemma safe_returned_apulls g w k :
  apulls k (frame Returned g) w = (repeat End k, frame Returned g, w).
Proof.
  induction k as [|k IH]; [reflexivity|].
  cbn [apulls]. now rewrite safe_anext_returned, IH.
Qed.
End SafeSuspending.

Section SafeSuspendingPolicy.
Context {W A G : Type} `{I : AsyncIterator W A G}.

Lemma safe_aemits_recovered (h : exn -> outcome A) g w ts e gf wf v :
  aemits g w ts (Raised (Failure e)) gf wf -> h e = Ret v ->
  aemits (safe_async_stream g (Some h)) w (ts ++ [v]) Exhausted
         {| asf_generator := gf; asf_on_error := Some h; asf_phase := Returned |} wf.
Proof.
  intros H Hv. apply (safe_aemits_forward _ _ _ _ _ _ _ H).
  intros glast wlast E. simpl in E. eapply aemits_token.
  - unfold anext at 1, safe_async_anext. simpl. rewrite E, Hv. reflexivity.
  - now apply aemits_end.
Qed.

Lemma safe_aemits_reraised g w ts r gf wf :
  aemits g w ts (Raised r) gf wf ->
  aemits (safe_async_stream g (@None (exn -> outcome A))) w ts (Raised r)
         {| asf_generator := gf; asf_on_error := None; asf_phase := Returned |} wf.
Proof.
  intros H. rewrite <- (app_nil_r ts). apply (safe_aemits_forward _ _ _ _ _ _ _ H).
  intros glast wlast E. simpl in E. apply aemits_raise.
  unfold anext at 1, safe_async_anext. simpl. rewrite E. now destruct r.
Qed.
End SafeSuspendingPolicy.

(** ** The aggregator *)

Lemma aggregate_sync_returns {G} `{I : Iterator str G} (g : G) ts gf :
  emits g ts Exhausted gf ->
  returns (fun fuel => aggregate_sync fuel g) (Ret (join (lit " ") ts)).
Proof.
  intros H. exists (S (length ts)). intros fuel Hfuel.
  unfold aggregate_sync, py_list. now rewrite (emits_drain _ _ _ _ H) by lia.
Qed.

Lemma aggregate_sync_raises {G} `{I : Iterator str G} (g : G) ts r gf :
  emits g ts (Raised r) gf ->
  returns (fun fuel => aggregate_sync fuel g) (Throw r).
Proof.
  intros H. exists (S (length ts)). intros fuel Hfuel.
  unfold aggregate_sync, py_list. now rewrite (emits_drain _ _ _ _ H) by lia.
Qed.

Lemma aggregate_async_returns {W G} `{I : AsyncIterator W str G} (g : G) (w : W) ts gf wf :
  aemits g w ts Exhausted gf wf ->
  returns (fun fuel => aggregate_async fuel g w) (Ret (join (lit " ") ts), wf).
Proof.
  intros H. exists (S (length ts)). intros fuel Hfuel.
  unfold aggregate_async. now rewrite (aemits_adrain _ _ _ _ _ _ H) by lia.
Qed.

Lemma aggregate_async_raises {W G} `{I : AsyncIterator W str G} (g : G) (w : W) ts r gf wf :
  aemits g w ts (Raised r) gf wf ->
  returns (fun fuel => aggregate_async fuel g w) (Throw r, wf).
Proof.
  intros H. exists (S (length ts)). intros fuel Hfuel.
  unfold aggregate_async. now rewrite (aemits_adrain _ _ _ _ _ _ H) by lia.
Qed.

Lemma collect_sync_returns prompt :
  returns (fun fuel => collect_sync_response fuel prompt)
          (Ret (join (lit " ") (prompt_tokens prompt))).
Proof. exact (aggregate_sync_returns _ _ _ (sync_stream_emits prompt)). Qed.

Lemma collect_async_returns {R} `{RS : RandomSource R} prompt (w : event_loop R) :
  returns (fun fuel => collect_async_response fuel prompt w)
          (Ret (join (lit " ") (prompt_tokens prompt)),
           paced (1 # 2) 1 (length (prompt_tokens prompt)) w).
Proof. exact (aggregate_async_returns _ _ _ _ _ (async_stream_aemits prompt w)). Qed.

Lemma prompt_tokens_words prompt t : In t (prompt_tokens prompt) -> is_word t = true.
Proof.
  assert (Hfb : In t fallback -> is_word t = true).
  { intros [<-|[<-|[<-|[]]]]; reflexivity. }
  destruct prompt as [s|]; simpl; [|exact Hfb].
  destruct (truthy s); [apply split_words | exact Hfb].
Qed.

Lemma all_space_prompt (s : str) :
  s <> [] -> all_space s = true -> prompt_tokens (Some s) = [].
Proof.
  intros Hne Hs. simpl. destruct s; [congruence|]. simpl truthy. cbv iota.
  unfold split. now rewrite split_ws_all_space.
Qed.

Example collect_sync_test :
  collect_sync_response 10 (Some (lit "This is a test")) = Some (Ret (lit "This is a test")).
Proof. reflexivity. Qed.

Example collect_sync_empty :
  collect_sync_response 10 (Some []) = Some (Ret (lit "No prompt provided")).
Proof. reflexivity. Qed.

Example collect_sync_runs :
  collect_sync_response 10 (Some (lit "a   b")) = Some (Ret (lit "a b")).
Proof. reflexivity. Qed.

(** * The claims *)

(** ** The client's callback *)

Example stream_sync_plain_call :
  LLMStreamingClient.call_stream_sync (V := unit) (Some (lit "Hello world")) []
  = Ret (sync_stream (Some (lit "Hello world"))).
Proof. reflexivity. Qed.

(** C1: the tests call [stream_sync] and [astream] with [callback=...] and
    expect the callback to see every token.  Neither method has such a
    parameter: the call itself raises [TypeError], no sequence is made, no
    token is emitted and the callback is never invoked. *)
Theorem callback_keyword_rejected (V : Type) (callback : V) (prompt : option str) :
  LLMStreamingClient.call_stream_sync prompt [("callback"%string, callback)]
  = Throw (type_error "stream_sync() got an unexpected keyword argument 'callback'")
  /\
  LLMStreamingClient.call_astream prompt [("callback"%string, callback)]
  = Throw (type_error "astream() got an unexpected keyword argument 'callback'").
Proof. split; reflexivity. Qed.

(** ** The safe wrapper *)

(** C2: over a sequence that yields [ts] and then raises the failure [e], the
    safe wrapper with a policy yields [ts], then the policy's token for [e],
    then ends; the underlying sequence has been pulled once per token and
    once for the failure, and is not pulled again however often the wrapper
    is.  Blocking and suspending. *)
Theorem safe_stream_recovers :
  (forall (A G : Type) (I : Iterator A G) (on_error : exn -> outcome A)
          (g : G) (ts : list A) (e : exn) (gf : G) (v : A),
     emits g ts (Raised (Failure e)) gf -> on_error e = Ret v ->
     let final := {| sf_generator := Counted gf (S (length ts));
                     sf_on_error := Some on_error; sf_phase := Returned |} in
     emits (safe_sync_stream (Counted g 0) (Some on_error)) (ts ++ [v]) Exhausted final
     /\ forall k, pulls k final = (repeat End k, final))
  /\
  (forall (W A G : Type) (I : AsyncIterator W A G) (on_error : exn -> outcome A)
          (g : G) (w : W) (ts : list A) (e : exn) (gf : G) (wf : W) (v : A),
     aemits g w ts (Raised (Failure e)) gf wf -> on_error e = Ret v ->
     let final := {| asf_generator := Counted gf (S (length ts));
                     asf_on_error := Some on_error; asf_phase := Returned |} in
     aemits (safe_async_stream (Counted g 0) (Some on_error)) w (ts ++ [v]) Exhausted final wf
     /\ forall k, apulls k final wf = (repeat End k, final, wf)).
Proof.
  split.
  - intros A G I on_error g ts e gf v H Hv final. split.
    + exact (safe_emits_recovered on_error _ _ _ _ _ (counted_emits _ _ _ _ H 0) Hv).
    + apply safe_returned_pulls.
  - intros W A G I on_error g w ts e gf wf v H Hv final. split.
    + exact (safe_aemits_recovered on_error _ _ _ _ _ _ _ (counted_aemits _ _ _ _ _ _ H 0) Hv).
    + apply safe_returned_apulls.
Qed.

(** The spec's example: ["A", "B"], a failure "X", a policy answering
    "[ERROR: X]". *)
Lemma safe_stream_recovers_example :
  (let final := {| sf_generator := Counted Spent 3;
                   sf_on_error := Some error_token; sf_phase := Returned |} in
   emits (safe_sync_stream (Counted failing_ab 0) (Some error_token))
         [lit "A"; lit "B"; lit "[ERROR: X]"] Exhausted final
   /\ forall k, pulls k final = (repeat End k, final))
  /\
  (let final := {| asf_generator := Counted Spent 3;
                   asf_on_error := Some error_token; asf_phase := Returned |} in
   aemits (safe_async_stream (Counted failing_ab 0) (Some error_token)) idle_loop
          [lit "A"; lit "B"; lit "[ERROR: X]"] Exhausted final idle_loop
   /\ forall k, apulls k final idle_loop = (repeat End k, final, idle_loop)).
Proof.
  split.
  - apply (proj1 safe_stream_recovers str (scripted str) _ error_token failing_ab
             [lit "A"; lit "B"]
             {| exn_type := "Exception"; exn_msg := lit "X" |} Spent (lit "[ERROR: X]")).
    + apply (drain_emits 3). reflexivity.
    + reflexivity.
  - apply (proj2 safe_stream_recovers (event_loop nat) str (scripted str) _ error_token
             failing_ab idle_loop [lit "A"; lit "B"]
             {| exn_type := "Exception"; exn_msg := lit "X" |} Spent idle_loop
             (lit "[ERROR: X]")).
    + apply (adrain_aemits 3). reflexivity.
    + reflexivity.
Defined.

Example safe_sync_test :
  drain 5 (safe_sync_stream failing_sync_stream (Some error_token))
  = Some ([lit "Sync1"; lit "Sync2"; lit "[ERROR: Sync failure]"], Exhausted,
          {| sf_generator := Spent; sf_on_error := Some error_token; sf_phase := Returned |}).
Proof. reflexivity. Qed.

(** C3: with no policy the wrapper yields [ts] and then raises what the
    underlying sequence raised; the caller's loop has received [ts], and
    nothing in place of the failure.  Blocking and suspending. *)
Theorem safe_stream_reraises :
  (forall (A G : Type) (I : Iterator A G) (g : G) (ts : list A) (r : raised) (gf : G),
     emits g ts (Raised r) gf ->
     let wrapped := safe_sync_stream g (@None (exn -> outcome A)) in
     let final := {| sf_generator := gf; sf_on_error := None; sf_phase := Returned |} in
     emits wrapped ts (Raised r) final
     /\ returns (fun fuel => drain fuel wrapped) (ts, Raised r, final))
  /\
  (forall (W A G : Type) (I : AsyncIterator W A G) (g : G) (w : W) (ts : list A)
          (r : raised) (gf : G) (wf : W),
     aemits g w ts (Raised r) gf wf ->
     let wrapped := safe_async_stream g (@None (exn -> outcome A)) in
     let final := {| asf_generator := gf; asf_on_error := None; asf_phase := Returned |} in
     aemits wrapped w ts (Raised r) final wf
     /\ returns (fun fuel => adrain fuel wrapped w) (ts, Raised r, final, wf)).
Proof.
  split.
  - intros A G I g ts r gf H wrapped final.
    pose proof (safe_emits_reraised _ _ _ _ H) as Hw.
    split; [exact Hw | exact (emits_returns _ _ _ _ Hw)].
  - intros W A G I g w ts r gf wf H wrapped final.
    pose proof (safe_aemits_reraised _ _ _ _ _ _ H) as Hw.
    split; [exact Hw | exact (aemits_returns _ _ _ _ _ _ Hw)].
Qed.

Lemma safe_stream_reraises_example :
  let failure := Failure {| exn_type := "Exception"; exn_msg := lit "X" |} in
  emits (safe_sync_stream failing_ab (@None (exn -> outcome str)))
        [lit "A"; lit "B"] (Raised failure)
        {| sf_generator := Spent; sf_on_error := None; sf_phase := Returned |}
  /\
  aemits (safe_async_stream failing_ab (@None (exn -> outcome str))) idle_loop
         [lit "A"; lit "B"] (Raised failure)
         {| asf_generator := Spent; asf_on_error := None; asf_phase := Returned |} idle_loop.
Proof.
  split.
  - apply (proj1 safe_stream_reraises str (scripted str) _ failing_ab [lit "A"; lit "B"]).
    apply (drain_emits 3). reflexivity.
  - apply (proj2 safe_stream_reraises (event_loop nat) str (scripted str) _ failing_ab
             idle_loop [lit "A"; lit "B"]).
    apply (adrain_aemits 3). reflexivity.
Defined.

(** ** Completing a prompt *)

(** C4: on a non-empty prompt whose tokens are separated by exactly one space
    each, with no other whitespace, [complete_sync] returns the prompt
    itself. *)
Theorem complete_sync_roundtrip (P : str) :
  single_space_normalized P = true ->
  returns (fun fuel => LLMStreamingClient.complete_sync fuel (Some P)) (Ret P).
Proof.
  intros HP. pose proof (collect_sync_returns (Some P)) as H.
  unfold single_space_normalized in HP. apply andb_true_iff in HP as [Hne Hnorm].
  simpl prompt_tokens in H. rewrite Hne in H.
  change (join (lit " ") (split P)) with (join [space] (split_ws [] P)) in H.
  rewrite (proj2 (join_split_ws P) Hnorm) in H. exact H.
Qed.

Lemma complete_sync_roundtrip_example :
  returns (fun fuel => LLMStreamingClient.complete_sync fuel (Some (lit "Hello world")))
          (Ret (lit "Hello world")).
Proof. apply (complete_sync_roundtrip (lit "Hello world")). reflexivity. Defined.

(** The same, said with the tokens: a prompt built by joining words with one
    space comes back unchanged. *)
Corollary complete_sync_of_join (ts : list str) :
  ts <> [] -> (forall t, In t ts -> is_word t = true) ->
  returns (fun fuel => collect_sync_response fuel (Some (join (lit " ") ts)))
          (Ret (join (lit " ") ts)).
Proof.
  intros Hne Hts. pose proof (normalized_join ts Hne Hts) as HP.
  pose proof (collect_sync_returns (Some (join (lit " ") ts))) as H.
  simpl prompt_tokens in H.
  pose proof HP as HP'. unfold single_space_normalized in HP'.
  apply andb_true_iff in HP' as [Htruthy _]. rewrite Htruthy in H.
  now rewrite (join_split _ HP) in H.
Qed.

(** C5: for every prompt, and whatever the delays drawn, [acomplete] returns
    the string [complete_sync] returns; the event loop has only slept, once
    per token. *)
Theorem acomplete_agrees_with_complete_sync
  (R : Type) (RS : RandomSource R) (prompt : option str) (w : event_loop R) :
  let tokens := prompt_tokens prompt in
  let answer := join (lit " ") tokens in
  let slept := paced (1 # 2) 1 (length tokens) w in
  returns (fun fuel => LLMStreamingClient.complete_sync fuel prompt) (Ret answer)
  /\ returns (fun fuel => LLMStreamingClient.acomplete fuel prompt w) (Ret answer, slept)
  /\ emits (LLMStreamingClient.stream_sync prompt) tokens Exhausted SyncFinished
  /\ aemits (LLMStreamingClient.astream prompt) w tokens Exhausted
             LLMStreamingClient.AstreamFinished slept.
Proof.
  repeat split.
  - apply collect_sync_returns.
  - apply collect_async_returns.
  - apply sync_stream_emits.
  - apply astream_aemits.
Qed.

Example acomplete_test :
  LLMStreamingClient.acomplete 10 (Some (lit "Hello async world")) idle_loop
  = Some (Ret (lit "Hello async world"),
          {| rng := 3; slept := [(1 # 2)%Q; 1%Q; (1 # 2)%Q] |}).
Proof. reflexivity. Qed.

(** ** The baseline sequences *)

(** C6: for no prompt ([None]) and for the empty prompt both baseline
    sequences emit "No", "prompt", "provided"; for any other prompt they emit
    the prompt cut at its whitespace runs, which is what [split] computes and
    never contains an empty token. *)
Theorem baseline_tokens (R : Type) (RS : RandomSource R) (w : event_loop R) :
  (forall prompt, prompt = None \/ prompt = Some [] ->
     let tokens := [lit "No"; lit "prompt"; lit "provided"] in
     emits (sync_stream prompt) tokens Exhausted SyncFinished
     /\ aemits (async_stream prompt) w tokens Exhausted AsyncFinished (paced (1 # 2) 1 3 w))
  /\
  (forall s : str, s <> [] ->
     emits (sync_stream (Some s)) (split s) Exhausted SyncFinished
     /\ aemits (async_stream (Some s)) w (split s) Exhausted AsyncFinished
               (paced (1 # 2) 1 (length (split s)) w)
     /\ ws_split s (split s)
     /\ (forall ts, ws_split s ts -> ts = split s)
     /\ ~ In [] (split s)).
Proof.
  split.
  - intros prompt Hp tokens.
    assert (E : prompt_tokens prompt = tokens) by (destruct Hp as [-> | ->]; reflexivity).
    pose proof (sync_stream_emits prompt) as Hs.
    pose proof (async_stream_aemits prompt w) as Ha.
    rewrite E in Hs, Ha. split; assumption.
  - intros s Hs.
    assert (E : prompt_tokens (Some s) = split s) by (destruct s; [congruence|reflexivity]).
    pose proof (sync_stream_emits (Some s)) as Hsync.
    pose proof (async_stream_aemits (Some s) w) as Hasync.
    rewrite E in Hsync, Hasync.
    repeat split; try assumption.
    + apply ws_split_split.
    + intros ts Hts. symmetry. now apply ws_split_unique.
    + intros Hin. apply split_words in Hin. discriminate.
Qed.

Lemma baseline_tokens_example :
  (emits (sync_stream None) [lit "No"; lit "prompt"; lit "provided"] Exhausted SyncFinished
   /\ emits (sync_stream (Some [])) [lit "No"; lit "prompt"; lit "provided"]
            Exhausted SyncFinished)
  /\ emits (sync_stream (Some (lit "Hello, world!"))) [lit "Hello,"; lit "world!"]
           Exhausted SyncFinished
  /\ aemits (async_stream (Some (lit "Hello async world!"))) idle_loop
            [lit "Hello"; lit "async"; lit "world!"] Exhausted AsyncFinished
            {| rng := 3; slept := [(1 # 2)%Q; 1%Q; (1 # 2)%Q] |}.
Proof.
  repeat split.
  - apply (proj1 (baseline_tokens nat _ idle_loop) None). left. reflexivity.
  - apply (proj1 (baseline_tokens nat _ idle_loop) (Some [])). right. reflexivity.
  - apply (proj2 (baseline_tokens nat _ idle_loop) (lit "Hello, world!")). discriminate.
  - exact (proj1 (proj2 (proj2 (baseline_tokens nat _ idle_loop)
                                  (lit "Hello async world!") ltac:(discriminate)))).
Defined.

(** C9: a prompt that is not empty but holds whitespace only passes the
    truthiness test, so the fallback is not used: the sequences emit nothing,
    and both completions return the empty string. *)
Theorem whitespace_prompt_completes_empty
  (R : Type) (RS : RandomSource R) (w : event_loop R) (s : str) :
  s <> [] -> all_space s = true ->
  emits (sync_stream (Some s)) [] Exhausted SyncFinished
  /\ aemits (async_stream (Some s)) w [] Exhausted AsyncFinished w
  /\ returns (fun fuel => LLMStreamingClient.complete_sync fuel (Some s)) (Ret [])
  /\ returns (fun fuel => LLMStreamingClient.acomplete fuel (Some s) w) (Ret [], w).
Proof.
  intros Hne Hs. pose proof (all_space_prompt s Hne Hs) as E.
  pose proof (sync_stream_emits (Some s)) as Hsync.
  pose proof (async_stream_aemits (Some s) w) as Hasync.
  pose proof (collect_sync_returns (Some s)) as Hc.
  pose proof (collect_async_returns (Some s) w) as Hac.
  rewrite E in Hsync, Hasync, Hc, Hac. repeat split; assumption.
Qed.

Lemma whitespace_prompt_example :
  emits (sync_stream (Some (lit "   "))) [] Exhausted SyncFinished
  /\ aemits (async_stream (Some (lit "   "))) idle_loop [] Exhausted AsyncFinished idle_loop
  /\ returns (fun fuel => LLMStreamingClient.complete_sync fuel (Some (lit "   "))) (Ret [])
  /\ returns (fun fuel => LLMStreamingClient.acomplete fuel (Some (lit "   ")) idle_loop)
             (Ret [], idle_loop).
Proof.
  apply (whitespace_prompt_completes_empty nat _ idle_loop (lit "   ")).
  - discriminate.
  - reflexivity.
Defined.

(** C10: every token the baseline sequences emit, the fallback ones too, is
    a non-empty string without a whitespace character; and they do emit: each
    runs to its end. *)
Theorem baseline_tokens_are_words
  (R : Type) (RS : RandomSource R) (w : event_loop R) (prompt : option str) :
  let word t := t <> [] /\ forall c, In c t -> isspace c = false in
  (forall ts fin gf, emits (sync_stream prompt) ts fin gf -> Forall word ts)
  /\ (forall ts fin gf wf, aemits (async_stream prompt) w ts fin gf wf -> Forall word ts)
  /\ (exists ts, emits (sync_stream prompt) ts Exhausted SyncFinished)
  /\ (exists ts wf, aemits (async_stream prompt) w ts Exhausted AsyncFinished wf).
Proof.
  intros word.
  assert (Hwords : Forall word (prompt_tokens prompt)).
  { apply Forall_forall. intros t Ht.
    apply prompt_tokens_words, is_word_spec in Ht as [Hne Hns].
    split; [exact Hne|]. intros c Hc. unfold no_space in Hns.
    rewrite forallb_forall in Hns. now apply negb_true_iff, Hns. }
  split; [|split; [|split]].
  - intros ts fin gf H.
    destruct (emits_unique _ _ _ _ (sync_stream_emits prompt) _ _ _ H) as (-> & _).
    exact Hwords.
  - intros ts fin gf wf H.
    destruct (aemits_unique _ _ _ _ _ _ (async_stream_aemits prompt w) _ _ _ _ H) as (-> & _).
    exact Hwords.
  - eexists. apply sync_stream_emits.
  - do 2 eexists. apply async_stream_aemits.
Qed.

Lemma baseline_tokens_are_words_example :
  Forall (fun t => t <> [] /\ forall c, In c t -> isspace c = false)
         [lit "Hello,"; lit "world!"]
  /\ Forall (fun t => t <> [] /\ forall c, In c t -> isspace c = false)
            [lit "No"; lit "prompt"; lit "provided"].
Proof.
  split.
  - apply (proj1 (baseline_tokens_are_words nat _ idle_loop (Some (lit "Hello, world!")))
             [lit "Hello,"; lit "world!"] Exhausted SyncFinished).
    apply (drain_emits 3). reflexivity.
  - apply (proj1 (proj2 (baseline_tokens_are_words nat _ idle_loop None))
             [lit "No"; lit "prompt"; lit "provided"] Exhausted AsyncFinished
             {| rng := 3; slept := [(1 # 2)%Q; 1%Q; (1 # 2)%Q] |}).
    apply (adrain_aemits 4). reflexivity.
Defined.

(** ** The transform wrapper *)

Lemma py_list_returns {A G} `{I : Iterator A G} (g : G) ts gf :
  emits g ts Exhausted gf -> returns (fun fuel => py_list fuel g) (Ret ts).
Proof.
  intros H. exists (S (length ts)). intros fuel Hfuel.
  unfold py_list. now rewrite (emits_drain _ _ _ _ H) by lia.
Qed.

(** C7: over any sequence, yielding [ts] and then stopping either way, the
    transform wrapper with a pure [f] yields [f t] for each [t] of [ts], in
    order, and stops the same way, so [list] of the wrapped sequence is the
    map of [list] of the sequence; [f] has then been called once on each
    token, and after [k] pulls it has been called on the first [k] tokens
    only.  Blocking and suspending. *)
Theorem transform_stream_maps :
  (forall (A B G : Type) (I : Iterator A G) (f : A -> B)
          (g : G) (ts : list A) (fin : finish) (gf : G),
     emits g ts fin gf ->
     let wrapped := transform_sync_stream g (pure_fn f) in
     emits wrapped (map f ts) fin
           {| tr_generator := gf; tr_func := pure_fn f;
              tr_status := Finished; tr_calls := ts |}
     /\ length (map f ts) = length ts
     /\ (fin = Exhausted ->
         returns (fun fuel => py_list fuel g) (Ret ts)
         /\ returns (fun fuel => py_list fuel wrapped) (Ret (map f ts)))
     /\ (forall k, k <= length ts -> exists gk,
           pulls k wrapped
           = (map (fun t => Token (f t)) (firstn k ts),
              {| tr_generator := gk; tr_func := pure_fn f;
                 tr_status := Suspended; tr_calls := firstn k ts |})))
  /\
  (forall (W A B G : Type) (I : AsyncIterator W A G) (f : A -> B)
          (g : G) (w : W) (ts : list A) (fin : finish) (gf : G) (wf : W),
     aemits g w ts fin gf wf ->
     let wrapped := transform_async_stream g (pure_fn f) in
     aemits wrapped w (map f ts) fin
            {| atr_generator := gf; atr_func := pure_fn f;
               atr_status := Finished; atr_calls := ts |} wf
     /\ length (map f ts) = length ts
     /\ (forall k, k <= length ts -> exists gk wk,
           apulls k wrapped w
           = (map (fun t => Token (f t)) (firstn k ts),
              {| atr_generator := gk; atr_func := pure_fn f;
                 atr_status := Suspended; atr_calls := firstn k ts |}, wk))).
Proof.
  split.
  - intros A B G I f g ts fin gf H wrapped.
    pose proof (transform_emits_from f _ _ _ _ H []) as Hw. simpl in Hw.
    split; [exact Hw|]. split; [apply length_map|]. split.
    + intros ->. split; [exact (py_list_returns _ _ _ H) | exact (py_list_returns _ _ _ Hw)].
    + intros k Hk. exact (transform_pulls_from f _ _ _ _ H k [] Hk).
  - intros W A B G I f g w ts fin gf wf H wrapped.
    pose proof (transform_aemits_from f _ _ _ _ _ _ H []) as Hw. simpl in Hw.
    split; [exact Hw|]. split; [apply length_map|].
    intros k Hk. exact (transform_apulls_from f _ _ _ _ _ _ H k [] Hk).
Qed.

Lemma transform_stream_maps_example :
  emits (transform_sync_stream (sync_stream (Some (lit "hello world"))) (pure_fn to_upper))
        [lit "HELLO"; lit "WORLD"] Exhausted
        {| tr_generator := SyncFinished; tr_func := pure_fn to_upper;
           tr_status := Finished; tr_calls := [lit "hello"; lit "world"] |}
  /\
  aemits (transform_async_stream (async_stream (Some (lit "hello async"))) (pure_fn to_upper))
         idle_loop [lit "HELLO"; lit "ASYNC"] Exhausted
         {| atr_generator := AsyncFinished; atr_func := pure_fn to_upper;
            atr_status := Finished; atr_calls := [lit "hello"; lit "async"] |}
         {| rng := 2; slept := [(1 # 2)%Q; 1%Q] |}.
Proof.
  split.
  - apply (proj1 transform_stream_maps str str sync_gen _ to_upper
             (sync_stream (Some (lit "hello world"))) [lit "hello"; lit "world"]
             Exhausted SyncFinished).
    apply (drain_emits 3). reflexivity.
  - apply (proj2 transform_stream_maps (event_loop nat) str str async_gen _ to_upper
             (async_stream (Some (lit "hello async"))) idle_loop [lit "hello"; lit "async"]
             Exhausted AsyncFinished {| rng := 2; slept := [(1 # 2)%Q; 1%Q] |}).
    apply (adrain_aemits 3). reflexivity.
Defined.

(** ** The aggregator *)

(** C8: draining a sequence that yields [ts] and ends gives [ts] joined by
    single spaces, in order; draining one that raises gives that very raise.
    The collectors drain the baseline sequence of their prompt, and their
    result is the empty string exactly when that sequence emitted no token
    (its tokens are never empty).  Blocking and suspending. *)
Theorem aggregator_joins :
  (forall (G : Type) (I : Iterator str G) (g : G) (ts : list str) (fin : finish) (gf : G),
     emits g ts fin gf ->
     returns (fun fuel => aggregate_sync fuel g)
             (match fin with
              | Exhausted => Ret (join (lit " ") ts)
              | Raised r => Throw r
              end)
     /\ ((forall t, In t ts -> t <> []) -> join (lit " ") ts = [] <-> ts = []))
  /\
  (forall (W G : Type) (I : AsyncIterator W str G) (g : G) (w : W) (ts : list str)
          (fin : finish) (gf : G) (wf : W),
     aemits g w ts fin gf wf ->
     returns (fun fuel => aggregate_async fuel g w)
             (match fin with
              | Exhausted => Ret (join (lit " ") ts)
              | Raised r => Throw r
              end, wf))
  /\
  (forall (R : Type) (RS : RandomSource R) (w : event_loop R) (prompt : option str),
     exists tokens wf,
       emits (sync_stream prompt) tokens Exhausted SyncFinished
       /\ aemits (async_stream prompt) w tokens Exhausted AsyncFinished wf
       /\ returns (fun fuel => collect_sync_response fuel prompt) (Ret (join (lit " ") tokens))
       /\ returns (fun fuel => collect_async_response fuel prompt w)
                  (Ret (join (lit " ") tokens), wf)
       /\ (join (lit " ") tokens = [] <-> tokens = [])).
Proof.
  split; [|split].
  - intros G I g ts fin gf H. split; [|apply join_nil_iff].
    destruct fin; [exact (aggregate_sync_returns _ _ _ H) | exact (aggregate_sync_raises _ _ _ _ H)].
  - intros W G I g w ts fin gf wf H.
    destruct fin; [exact (aggregate_async_returns _ _ _ _ _ H)
                  | exact (aggregate_async_raises _ _ _ _ _ _ H)].
  - intros R RS w prompt.
    exists (prompt_tokens prompt), (paced (1 # 2) 1 (length (prompt_tokens prompt)) w).
    split; [apply sync_stream_emits|]. split; [apply async_stream_aemits|].
    split; [apply collect_sync_returns|]. split; [apply collect_async_returns|].
    apply join_nil_iff. intros t Ht. apply prompt_tokens_words, is_word_spec in Ht. tauto.
Qed.

Lemma aggregator_joins_example :
  returns (fun fuel => aggregate_sync fuel failing_sync_stream)
          (Throw (Failure {| exn_type := "Exception"; exn_msg := lit "Sync failure" |}))
  /\ returns (fun fuel => aggregate_sync fuel (sync_stream (Some (lit "This is a test"))))
             (Ret (lit "This is a test"))
  /\ returns (fun fuel => aggregate_async fuel failing_async_stream idle_loop)
             (Throw (Failure {| exn_type := "Exception"; exn_msg := lit "Async failure" |}),
              idle_loop).
Proof.
  split; [|split].
  - apply (proj1 aggregator_joins (scripted str) _ failing_sync_stream
             [lit "Sync1"; lit "Sync2"]
             (Raised (Failure {| exn_type := "Exception"; exn_msg := lit "Sync failure" |}))
             Spent).
    apply (drain_emits 3). reflexivity.
  - apply (proj1 aggregator_joins sync_gen _ (sync_stream (Some (lit "This is a test")))
             [lit "This"; lit "is"; lit "a"; lit "test"] Exhausted SyncFinished).
    apply (drain_emits 5). reflexivity.
  - apply (proj1 (proj2 aggregator_joins) (event_loop nat) (scripted str) _
             failing_async_stream idle_loop [lit "Async1"; lit "Async2"]
             (Raised (Failure {| exn_type := "Exception"; exn_msg := lit "Async failure" |}))
             Spent idle_loop).
    apply (adrain_aemits 3). reflexivity.
Defined.

(** * Further properties *)

(** ** Pulling step by step *)

Lemma pulls_step {A G} `{I : Iterator A G} (g : G) p g' k :
  next g = (p, g') ->
  pulls (S k) g = (p :: fst (pulls k g'), snd (pulls k g')).
Proof. intros E. cbn [pulls]. rewrite E. now destruct (pulls k g'). Qed.

Lemma apulls_step {W A G} `{I : AsyncIterator W A G} (g : G) (w : W) p g' w' k :
  anext g w = (p, g', w') ->
  apulls (S k) g w
  = (p :: fst (fst (apulls k g' w')), snd (fst (apulls k g' w')), snd (apulls k g' w')).
Proof. intros E. cbn [apulls]. rewrite E. now destruct (apulls k g' w') as [[? ?] ?]. Qed.

(** ** Pacing *)

Section Pacing.
Context {R : Type} `{RS : RandomSource R}.

Lemma sleep_uniform_slept lo hi (w : event_loop R) :
  slept (sleep_uniform lo hi w) = slept w ++ [fst (uniform lo hi (rng w))].
Proof. unfold sleep_uniform. now destruct (uniform lo hi (rng w)). Qed.

(** [n] sleeps add [n] delays behind those already in the log. *)
Lemma paced_slept lo hi n : forall w : event_loop R,
  exists delays, slept (paced lo hi n w) = slept w ++ delays
                 /\ length delays = n
                 /\ (within_bounds -> (lo <= hi)%Q ->
                     Forall (fun d => (lo <= d)%Q /\ (d <= hi)%Q) delays).
Proof.
  induction n as [|n IH]; intros w; simpl.
  - exists []. now rewrite app_nil_r.
  - destruct (IH (sleep_uniform lo hi w)) as (ds & Hs & Hl & Hb).
    exists (fst (uniform lo hi (rng w)) :: ds).
    rewrite Hs, sleep_uniform_slept, <- app_assoc. simpl.
    repeat split; [now rewrite Hl|]. intros Hu Hle. constructor; [now apply Hu | now apply Hb].
Qed.

Lemma llm_loop_aemits tokens : forall w : event_loop R,
  aemits (LlmLoop tokens) w tokens Exhausted LlmFinished
         (paced llm_delay_lo llm_delay_hi (length tokens) w).
Proof.
  induction tokens as [|t rest IH]; intros w; [now apply aemits_end|].
  eapply aemits_token; [reflexivity|].
  exact (IH (sleep_uniform llm_delay_lo llm_delay_hi w)).
Qed.
End Pacing.

Lemma alternating_within_bounds : within_bounds (R := nat).
Proof.
  intros lo hi r Hle. unfold uniform, alternating. simpl.
  destruct (Nat.even r); split; try apply Qle_refl; exact Hle.
Qed.

(** X1: [simulate_llm_response] emits its eight fixed tokens whatever the
    prompt, and ends; it has slept eight times, each delay between the bounds
    0.05 and 0.10 when the random source keeps to its bounds. *)
Theorem simulate_llm_response_ignores_prompt
  (R : Type) (RS : RandomSource R) (prompt : option str) (w : event_loop R) :
  exists wf delays,
    aemits (simulate_llm_response prompt) w
           [lit "Why"; lit "did"; lit "the"; lit "chicken"; lit "cross"; lit "the";
            lit "road"; lit "?"]
           Exhausted LlmFinished wf
    /\ slept wf = slept w ++ delays
    /\ length delays = 8
    /\ (within_bounds ->
        Forall (fun d => (llm_delay_lo <= d)%Q /\ (d <= llm_delay_hi)%Q) delays).
Proof.
  destruct (paced_slept llm_delay_lo llm_delay_hi 8 w) as (ds & Hs & Hl & Hb).
  exists (paced llm_delay_lo llm_delay_hi 8 w), ds.
  split; [|split; [exact Hs|split; [exact Hl|]]].
  - eapply aemits_token; [reflexivity|].
    exact (llm_loop_aemits (tl llm_tokens) (sleep_uniform llm_delay_lo llm_delay_hi w)).
  - intros Hu. apply Hb; [exact Hu|]. unfold llm_delay_lo, llm_delay_hi, Qle. simpl. lia.
Qed.

(** X14: [async_stream] sleeps exactly once per token it emits, before
    emitting it, and keeps the earlier entries of the sleep log; each delay is
    between 0.5 and 1 when the random source keeps to its bounds. *)
Theorem async_stream_sleeps_once_per_token
  (R : Type) (RS : RandomSource R) (prompt : option str) (w : event_loop R) :
  exists wf delays,
    aemits (async_stream prompt) w (prompt_tokens prompt) Exhausted AsyncFinished wf
    /\ slept wf = slept w ++ delays
    /\ length delays = length (prompt_tokens prompt)
    /\ (forall k, k <= length (prompt_tokens prompt) ->
        length (slept (snd (apulls k (async_stream prompt) w))) = length (slept w) + k)
    /\ (within_bounds -> Forall (fun d => (1 # 2 <= d)%Q /\ (d <= 1)%Q) delays).
Proof.
  destruct (paced_slept (1 # 2) 1 (length (prompt_tokens prompt)) w) as (ds & Hs & Hl & Hb).
  exists (paced (1 # 2) 1 (length (prompt_tokens prompt)) w), ds.
  split; [apply async_stream_aemits|]. split; [exact Hs|]. split; [exact Hl|]. split.
  - assert (Hloop : forall tokens k (w0 : event_loop R), k <= length tokens ->
              length (slept (snd (apulls k (AsyncLoop tokens) w0))) = length (slept w0) + k).
    { induction tokens as [|t rest IH]; intros [|k] w0 Hk; simpl in Hk; try lia;
        try (simpl; lia).
      rewrite (apulls_step (AsyncLoop (t :: rest)) w0 (Token t) (AsyncLoop rest)
                 (sleep_uniform (1 # 2) 1 w0) k eq_refl).
      cbn [snd]. rewrite IH by lia. rewrite sleep_uniform_slept, length_app. simpl. lia. }
    intros [|k] Hk; [simpl; lia|].
    destruct (prompt_tokens prompt) as [|t rest] eqn:E; [simpl in Hk; lia|].
    assert (Enext : anext (async_stream prompt) w
                    = (Token t, AsyncLoop rest, sleep_uniform (1 # 2) 1 w))
      by (unfold anext, async_stream_anext, async_stream; now rewrite E).
    rewrite (apulls_step _ _ _ _ _ k Enext). cbn [snd].
    rewrite Hloop by (simpl in Hk; lia).
    rewrite sleep_uniform_slept, length_app. simpl. lia.
  - intros Hu. apply Hb; [exact Hu|]. unfold Qle. simpl. lia.
Qed.

Lemma simulate_llm_response_example :
  exists wf delays,
    aemits (simulate_llm_response (Some (lit "Tell me a joke"))) idle_loop llm_tokens
           Exhausted LlmFinished wf
    /\ slept wf = delays
    /\ Forall (fun d => (llm_delay_lo <= d)%Q /\ (d <= llm_delay_hi)%Q) delays.
Proof.
  destruct (simulate_llm_response_ignores_prompt nat _ (Some (lit "Tell me a joke")) idle_loop)
    as (wf & delays & Hrun & Hslept & _ & Hbounds).
  exists wf, delays. split; [exact Hrun|]. split; [exact Hslept|].
  apply Hbounds. exact alternating_within_bounds.
Defined.

Lemma async_stream_sleeps_example :
  exists wf delays,
    aemits (async_stream (Some (lit "Hello async world!"))) idle_loop
           [lit "Hello"; lit "async"; lit "world!"] Exhausted AsyncFinished wf
    /\ slept wf = delays
    /\ length delays = 3
    /\ Forall (fun d => (1 # 2 <= d)%Q /\ (d <= 1)%Q) delays.
Proof.
  destruct (async_stream_sleeps_once_per_token nat _ (Some (lit "Hello async world!")) idle_loop)
    as (wf & delays & Hrun & Hslept & Hlen & _ & Hbounds).
  exists wf, delays. split; [exact Hrun|]. split; [exact Hslept|]. split; [exact Hlen|].
  apply Hbounds. exact alternating_within_bounds.
Defined.

(** ** The safe wrapper on other courses *)


(** X2: over a sequence that ends without raising, the safe wrapper yields
    the same tokens and ends, whatever the policy (none, or one that would
    itself raise): the policy plays no part.  Blocking and suspending. *)
Theorem safe_stream_transparent :
  (forall (A G : Type) (I : Iterator A G) (on_error : option (exn -> outcome A))
          (g : G) (ts : list A) (gf : G),
     emits g ts Exhausted gf ->
     emits (safe_sync_stream g on_error) ts Exhausted
           {| sf_generator := gf; sf_on_error := on_error; sf_phase := Returned |})
  /\
  (forall (W A G : Type) (I : AsyncIterator W A G) (on_error : option (exn -> outcome A))
          (g : G) (w : W) (ts : list A) (gf : G) (wf : W),
     aemits g w ts Exhausted gf wf ->
     aemits (safe_async_stream g on_error) w ts Exhausted
            {| asf_generator := gf; asf_on_error := on_error; asf_phase := Returned |} wf).
Proof.
  split.
  - intros A G I on_error g ts gf H. now apply safe_emits_exhausted.
  - intros W A G I on_error g w ts gf wf H. now apply safe_aemits_exhausted.
Qed.

Lemma safe_stream_transparent_example :
  emits (safe_sync_stream (sync_stream (Some (lit "Hello world")))
           (Some (fun _ : exn => @Throw str (Signal "SystemExit"))))
        [lit "Hello"; lit "world"] Exhausted
        {| sf_generator := SyncFinished;
           sf_on_error := Some (fun _ : exn => @Throw str (Signal "SystemExit"));
           sf_phase := Returned |}.
Proof.
  apply (proj1 safe_stream_transparent str sync_gen _
           (Some (fun _ : exn => @Throw str (Signal "SystemExit")))
           (sync_stream (Some (lit "Hello world"))) [lit "Hello"; lit "world"] SyncFinished).
  apply (drain_emits 3). reflexivity.
Defined.

(** X3: a raise that is not an instance of [Exception] ([KeyboardInterrupt],
    [SystemExit], a cancellation) is not caught by [except Exception]: the
    safe wrapper yields the tokens and lets it through, policy or not, and
    yields no substitute.  Blocking and suspending. *)
Theorem safe_stream_lets_signals_through :
  (forall (A G : Type) (I : Iterator A G) (on_error : option (exn -> outcome A))
          (g : G) (ts : list A) (name : string) (gf : G),
     emits g ts (Raised (Signal name)) gf ->
     emits (safe_sync_stream g on_error) ts (Raised (Signal name))
           {| sf_generator := gf; sf_on_error := on_error; sf_phase := Returned |})
  /\
  (forall (W A G : Type) (I : AsyncIterator W A G) (on_error : option (exn -> outcome A))
          (g : G) (w : W) (ts : list A) (name : string) (gf : G) (wf : W),
     aemits g w ts (Raised (Signal name)) gf wf ->
     aemits (safe_async_stream g on_error) w ts (Raised (Signal name))
            {| asf_generator := gf; asf_on_error := on_error; asf_phase := Returned |} wf).
Proof.
  split.
  - intros A G I on_error g ts name gf H. now apply safe_emits_signal.
  - intros W A G I on_error g w ts name gf wf H. now apply safe_aemits_signal.
Qed.

Lemma safe_stream_lets_signals_through_example :
  aemits (safe_async_stream (Script [lit "A"; lit "B"] (Raised (Signal "CancelledError")))
            (Some error_token))
         idle_loop [lit "A"; lit "B"] (Raised (Signal "CancelledError"))
         {| asf_generator := Spent; asf_on_error := Some error_token; asf_phase := Returned |}
         idle_loop.
Proof.
  apply (proj2 safe_stream_lets_signals_through (event_loop nat) str (scripted str) _
           (Some error_token) (Script [lit "A"; lit "B"] (Raised (Signal "CancelledError")))
           idle_loop [lit "A"; lit "B"] "CancelledError"%string Spent idle_loop).
  apply (adrain_aemits 3). reflexivity.
Defined.



(** ** A transform function that raises *)

Lemma counted_pulls {A G} `{I : Iterator A G} k : forall (g : G) n,
  snd (pulls k (Counted g n)) = Counted (snd (pulls k g)) (n + k).
Proof.
  induction k as [|k IH]; intros g n; [simpl; f_equal; lia|].
  destruct (next g) as [p g'] eqn:E.
  assert (Ec : next (Counted g n) = (p, Counted g' (S n))).
  { unfold next at 1, counted_next. simpl. fold (next g). now rewrite E. }
  rewrite (pulls_step _ _ _ k Ec), (pulls_step _ _ _ k E). cbn [snd].
  rewrite IH. f_equal. lia.
Qed.


Section TransformFailure.
Context {A B G : Type} `{I : Iterator A G} (f : A -> outcome B) (h : A -> B).

Local Abbreviation frame st g calls :=
  {| tr_generator := g; tr_func := f; tr_status := st; tr_calls := calls |}.



End TransformFailure.

Section TransformFailureSuspending.
Context {W A B G : Type} `{I : AsyncIterator W A G} (f : A -> outcome B) (h : A -> B).

Local Abbreviation frame st g calls :=
  {| atr_generator := g; atr_func := f; atr_status := st; atr_calls := calls |}.



End TransformFailureSuspending.



(** ** Wrappers in a pipeline *)

(** X6: two transform wrappers in a row yield what one wrapper with the
    composed function yields: the images under [h] after [f], in order, with
    the ending of the underlying sequence.  Blocking and suspending. *)
Theorem transform_stream_composes :
  (forall (A B C G : Type) (I : Iterator A G) (f : A -> B) (h : B -> C)
          (g : G) (ts : list A) (fin : finish) (gf : G),
     emits g ts fin gf ->
     let images := map (fun t => h (f t)) ts in
     emits (transform_sync_stream (transform_sync_stream g (pure_fn f)) (pure_fn h))
           images fin
           {| tr_generator := {| tr_generator := gf; tr_func := pure_fn f;
                                 tr_status := Finished; tr_calls := ts |};
              tr_func := pure_fn h; tr_status := Finished; tr_calls := map f ts |}
     /\ emits (transform_sync_stream g (pure_fn (fun t => h (f t)))) images fin
              {| tr_generator := gf; tr_func := pure_fn (fun t => h (f t));
                 tr_status := Finished; tr_calls := ts |})
  /\
  (forall (W A B C G : Type) (I : AsyncIterator W A G) (f : A -> B) (h : B -> C)
          (g : G) (w : W) (ts : list A) (fin : finish) (gf : G) (wf : W),
     aemits g w ts fin gf wf ->
     let images := map (fun t => h (f t)) ts in
     aemits (transform_async_stream (transform_async_stream g (pure_fn f)) (pure_fn h)) w
            images fin
            {| atr_generator := {| atr_generator := gf; atr_func := pure_fn f;
                                   atr_status := Finished; atr_calls := ts |};
               atr_func := pure_fn h; atr_status := Finished; atr_calls := map f ts |} wf
     /\ aemits (transform_async_stream g (pure_fn (fun t => h (f t)))) w images fin
               {| atr_generator := gf; atr_func := pure_fn (fun t => h (f t));
                  atr_status := Finished; atr_calls := ts |} wf).
Proof.
  split.
  - intros A B C G I f h g ts fin gf H images. split.
    + pose proof (transform_emits_from h _ _ _ _ (transform_emits_from f _ _ _ _ H []) [])
        as Hw. rewrite map_map in Hw. exact Hw.
    + exact (transform_emits_from (fun t => h (f t)) _ _ _ _ H []).
  - intros W A B C G I f h g w ts fin gf wf H images. split.
    + pose proof (transform_aemits_from h _ _ _ _ _ _
                    (transform_aemits_from f _ _ _ _ _ _ H []) []) as Hw.
      rewrite map_map in Hw. exact Hw.
    + exact (transform_aemits_from (fun t => h (f t)) _ _ _ _ _ _ H []).
Qed.

Lemma transform_stream_composes_example :
  emits (transform_sync_stream
           (transform_sync_stream (sync_stream (Some (lit "hello world"))) (pure_fn to_upper))
           (pure_fn (fun t : str => t ++ lit "!")))
        [lit "HELLO!"; lit "WORLD!"] Exhausted
        {| tr_generator := {| tr_generator := SyncFinished; tr_func := pure_fn to_upper;
                              tr_status := Finished;
                              tr_calls := [lit "hello"; lit "world"] |};
           tr_func := pure_fn (fun t : str => t ++ lit "!"); tr_status := Finished;
           tr_calls := [lit "HELLO"; lit "WORLD"] |}.
Proof.
  apply (proj1 transform_stream_composes str str str sync_gen _ to_upper
           (fun t : str => t ++ lit "!") (sync_stream (Some (lit "hello world")))
           [lit "hello"; lit "world"] Exhausted SyncFinished).
  apply (drain_emits 3). reflexivity.
Defined.



(** X8: a transform wrapper around a safe wrapper transforms the policy's
    token like any other: after the images of the tokens comes the image of
    the substitute, then the end.  Blocking and suspending. *)
Theorem transform_stream_maps_recovery_token :
  (forall (A B G : Type) (I : Iterator A G) (on_error : exn -> outcome A) (f : A -> B)
          (g : G) (ts : list A) (e : exn) (gf : G) (v : A),
     emits g ts (Raised (Failure e)) gf -> on_error e = Ret v ->
     emits (transform_sync_stream (safe_sync_stream g (Some on_error)) (pure_fn f))
           (map f ts ++ [f v]) Exhausted
           {| tr_generator := {| sf_generator := gf; sf_on_error := Some on_error;
                                 sf_phase := Returned |};
              tr_func := pure_fn f; tr_status := Finished; tr_calls := ts ++ [v] |})
  /\
  (forall (W A B G : Type) (I : AsyncIterator W A G) (on_error : exn -> outcome A)
          (f : A -> B) (g : G) (w : W) (ts : list A) (e : exn) (gf : G) (wf : W) (v : A),
     aemits g w ts (Raised (Failure e)) gf wf -> on_error e = Ret v ->
     aemits (transform_async_stream (safe_async_stream g (Some on_error)) (pure_fn f)) w
            (map f ts ++ [f v]) Exhausted
            {| atr_generator := {| asf_generator := gf; asf_on_error := Some on_error;
                                   asf_phase := Returned |};
               atr_func := pure_fn f; atr_status := Finished; atr_calls := ts ++ [v] |} wf).
Proof.
  split.
  - intros A B G I on_error f g ts e gf v H Hv.
    pose proof (transform_emits_from f _ _ _ _
                  (safe_emits_recovered on_error _ _ _ _ _ H Hv) []) as Hw.
    rewrite map_app in Hw. exact Hw.
  - intros W A B G I on_error f g w ts e gf wf v H Hv.
    pose proof (transform_aemits_from f _ _ _ _ _ _
                  (safe_aemits_recovered on_error _ _ _ _ _ _ _ H Hv) []) as Hw.
    rewrite map_app in Hw. exact Hw.
Qed.

Lemma transform_stream_maps_recovery_token_example :
  emits (transform_sync_stream (safe_sync_stream failing_sync_stream (Some error_token))
           (pure_fn to_upper))
        [lit "SYNC1"; lit "SYNC2"; lit "[ERROR: SYNC FAILURE]"] Exhausted
        {| tr_generator := {| sf_generator := Spent; sf_on_error := Some error_token;
                              sf_phase := Returned |};
           tr_func := pure_fn to_upper; tr_status := Finished;
           tr_calls := [lit "Sync1"; lit "Sync2"; lit "[ERROR: Sync failure]"] |}.
Proof.
  apply (proj1 transform_stream_maps_recovery_token str str (scripted str) _ error_token
           to_upper failing_sync_stream [lit "Sync1"; lit "Sync2"]
           {| exn_type := "Exception"; exn_msg := lit "Sync failure" |} Spent
           (lit "[ERROR: Sync failure]")).
  - apply (drain_emits 3). reflexivity.
  - reflexivity.
Defined.

(** ** No pulling ahead *)

Lemma transform_pulls_state {A B G} `{I : Iterator A G} (f : A -> B) g ts fin gf :
  emits g ts fin gf -> forall k calls, k <= length ts ->
  pulls k {| tr_generator := g; tr_func := pure_fn f; tr_status := Suspended;
             tr_calls := calls |}
  = (map (fun t => Token (f t)) (firstn k ts),
     {| tr_generator := snd (pulls k g); tr_func := pure_fn f; tr_status := Suspended;
        tr_calls := calls ++ firstn k ts |}).
Proof.
  induction 1 as [g gf E | g r gf E | g t g' ts fin gf E _ IH];
    intros [|k] calls Hk; simpl in Hk; try lia;
    try (simpl; now rewrite app_nil_r).
  rewrite (pulls_step _ _ _ k (transform_next_token f _ _ _ calls E)).
  rewrite (pulls_step _ _ _ k E), IH by lia. simpl. now rewrite <- app_assoc.
Qed.

Lemma safe_pulls_state {A G} `{I : Iterator A G} (on_error : option (exn -> outcome A))
  g ts fin gf :
  emits g ts fin gf -> forall k, k <= length ts ->
  pulls k {| sf_generator := g; sf_on_error := on_error; sf_phase := InTry |}
  = (map Token (firstn k ts),
     {| sf_generator := snd (pulls k g); sf_on_error := on_error; sf_phase := InTry |}).
Proof.
  induction 1 as [g gf E | g r gf E | g t g' ts fin gf E _ IH];
    intros [|k] Hk; simpl in Hk; try lia; try reflexivity.
  rewrite (pulls_step _ _ _ k (safe_next_token on_error _ _ _ E)).
  rewrite (pulls_step _ _ _ k E), IH by lia. reflexivity.
Qed.

(** X15: neither wrapper pulls ahead.  After [k] pulls on the wrapper, [k]
    no more than the number of tokens, the underlying sequence has been
    pulled exactly [k] times and the wrapper has answered with the first [k]
    tokens (their images, for the transform wrapper). *)
Theorem wrappers_pull_on_demand :
  (forall (A B G : Type) (I : Iterator A G) (f : A -> B)
          (g : G) (ts : list A) (fin : finish) (gf : G) (k : nat),
     emits g ts fin gf -> k <= length ts ->
     pulls k (transform_sync_stream (Counted g 0) (pure_fn f))
     = (map (fun t => Token (f t)) (firstn k ts),
        {| tr_generator := Counted (snd (pulls k g)) k; tr_func := pure_fn f;
           tr_status := Suspended; tr_calls := firstn k ts |}))
  /\
  (forall (A G : Type) (I : Iterator A G) (on_error : option (exn -> outcome A))
          (g : G) (ts : list A) (fin : finish) (gf : G) (k : nat),
     emits g ts fin gf -> k <= length ts ->
     pulls k (safe_sync_stream (Counted g 0) on_error)
     = (map Token (firstn k ts),
        {| sf_generator := Counted (snd (pulls k g)) k; sf_on_error := on_error;
           sf_phase := InTry |})).
Proof.
  split.
  - intros A B G I f g ts fin gf k H Hk. unfold transform_sync_stream.
    rewrite (transform_pulls_state f _ _ _ _ (counted_emits _ _ _ _ H 0) k [] Hk).
    now rewrite counted_pulls.
  - intros A G I on_error g ts fin gf k H Hk. unfold safe_sync_stream.
    rewrite (safe_pulls_state on_error _ _ _ _ (counted_emits _ _ _ _ H 0) k Hk).
    now rewrite counted_pulls.
Qed.

Lemma wrappers_pull_on_demand_example :
  pulls 1 (transform_sync_stream (Counted (sync_stream (Some (lit "hello big world"))) 0)
             (pure_fn to_upper))
  = ([Token (lit "HELLO")],
     {| tr_generator := Counted (SyncLoop [lit "big"; lit "world"]) 1;
        tr_func := pure_fn to_upper; tr_status := Suspended; tr_calls := [lit "hello"] |})
  /\
  pulls 2 (safe_sync_stream (Counted failing_sync_stream 0) (Some error_token))
  = ([Token (lit "Sync1"); Token (lit "Sync2")],
     {| sf_generator :=
          Counted (Script [] (Raised (Failure {| exn_type := "Exception";
                                                 exn_msg := lit "Sync failure" |}))) 2;
        sf_on_error := Some error_token; sf_phase := InTry |}).
Proof.
  split.
  - refine (proj1 wrappers_pull_on_demand str str sync_gen _ to_upper
              (sync_stream (Some (lit "hello big world")))
              [lit "hello"; lit "big"; lit "world"] Exhausted SyncFinished 1 _ _).
    + apply (drain_emits 4). reflexivity.
    + simpl. lia.
  - refine (proj2 wrappers_pull_on_demand str (scripted str) _ (Some error_token)
              failing_sync_stream [lit "Sync1"; lit "Sync2"]
              (Raised (Failure {| exn_type := "Exception"; exn_msg := lit "Sync failure" |}))
              Spent 2 _ _).
    + apply (drain_emits 3). reflexivity.
    + simpl. lia.
Defined.

(** ** After the end *)





(** ** Completions *)

Lemma ws_split_join (ts : list str) :
  (forall t, In t ts -> is_word t = true) -> ws_split (join (lit " ") ts) ts.
Proof.
  induction ts as [|t rest IH]; intros Hts; [now apply ws_done|].
  assert (Ht : is_word t = true) by (apply Hts; now left).
  assert (Hrest : ws_split (join (lit " ") rest) rest)
    by (apply IH; intros u Hu; apply Hts; now right).
  destruct rest as [|t' rest'].
  - pose proof (@ws_word t [] [] Ht I Hrest) as H. now rewrite app_nil_r in H.
  - rewrite join_cons by discriminate. apply ws_word; [exact Ht|reflexivity|].
    now apply ws_skip.
Qed.

Lemma split_join (ts : list str) :
  (forall t, In t ts -> is_word t = true) -> split (join (lit " ") ts) = ts.
Proof. intros Hts. now apply ws_split_unique, ws_split_join. Qed.

Lemma prompt_tokens_join (ts : list str) :
  ts <> [] -> (forall t, In t ts -> is_word t = true) ->
  prompt_tokens (Some (join (lit " ") ts)) = ts.
Proof.
  intros Hne Hts. pose proof (normalized_join ts Hne Hts) as Hn.
  unfold single_space_normalized in Hn. apply andb_true_iff in Hn as [Htruthy _].
  simpl. now rewrite Htruthy, split_join.
Qed.

(** X10: for no prompt and for the empty prompt, [collect_sync_response]
    and [collect_async_response] (so [complete_sync] and [acomplete]) return
    "No prompt provided"; the suspending one has slept three times. *)
Theorem completion_of_no_prompt
  (R : Type) (RS : RandomSource R) (w : event_loop R) (prompt : option str) :
  prompt = None \/ prompt = Some [] ->
  returns (fun fuel => collect_sync_response fuel prompt) (Ret (lit "No prompt provided"))
  /\ returns (fun fuel => LLMStreamingClient.complete_sync fuel prompt)
             (Ret (lit "No prompt provided"))
  /\ returns (fun fuel => collect_async_response fuel prompt w)
             (Ret (lit "No prompt provided"), paced (1 # 2) 1 3 w)
  /\ returns (fun fuel => LLMStreamingClient.acomplete fuel prompt w)
             (Ret (lit "No prompt provided"), paced (1 # 2) 1 3 w).
Proof.
  intros Hp.
  assert (E : prompt_tokens prompt = fallback) by (destruct Hp as [-> | ->]; reflexivity).
  pose proof (collect_sync_returns prompt) as Hs.
  pose proof (collect_async_returns prompt w) as Ha.
  rewrite E in Hs, Ha. repeat split; assumption.
Qed.

Lemma completion_of_no_prompt_example :
  returns (fun fuel => collect_sync_response fuel None) (Ret (lit "No prompt provided"))
  /\ returns (fun fuel => LLMStreamingClient.acomplete fuel (Some []) idle_loop)
             (Ret (lit "No prompt provided"),
              {| rng := 3; slept := [(1 # 2)%Q; 1%Q; (1 # 2)%Q] |}).
Proof.
  split.
  - apply (completion_of_no_prompt nat _ idle_loop None). left. reflexivity.
  - exact (proj2 (proj2 (proj2 (completion_of_no_prompt nat _ idle_loop (Some [])
                                  (or_intror eq_refl))))).
Defined.

(** X11: whatever the prompt, the completion is either empty or
    single-space-normalized: it has no leading or trailing whitespace, no
    whitespace but the space character, and no two spaces in a row.
    Blocking and suspending. *)
Theorem completion_is_normalized
  (R : Type) (RS : RandomSource R) (w : event_loop R) (prompt : option str) :
  exists answer wf,
    returns (fun fuel => collect_sync_response fuel prompt) (Ret answer)
    /\ returns (fun fuel => collect_async_response fuel prompt w) (Ret answer, wf)
    /\ (answer = [] \/ single_space_normalized answer = true)
    /\ (answer = [] <-> prompt_tokens prompt = []).
Proof.
  exists (join (lit " ") (prompt_tokens prompt)),
         (paced (1 # 2) 1 (length (prompt_tokens prompt)) w).
  split; [apply collect_sync_returns|]. split; [apply collect_async_returns|].
  assert (Hwords : forall t, In t (prompt_tokens prompt) -> is_word t = true)
    by apply prompt_tokens_words.
  split.
  - destruct (prompt_tokens prompt) as [|t rest] eqn:E; [now left|right].
    apply normalized_join; [discriminate|exact Hwords].
  - apply join_nil_iff. intros t Ht. apply Hwords, is_word_spec in Ht. tauto.
Qed.

(** X13: a prompt made by joining words with single spaces is streamed back
    as exactly those words, in both modes: splitting undoes joining. *)
Theorem stream_of_joined_words
  (R : Type) (RS : RandomSource R) (w : event_loop R) (ts : list str) :
  ts <> [] -> (forall t, In t ts -> is_word t = true) ->
  emits (sync_stream (Some (join (lit " ") ts))) ts Exhausted SyncFinished
  /\ aemits (async_stream (Some (join (lit " ") ts))) w ts Exhausted AsyncFinished
            (paced (1 # 2) 1 (length ts) w).
Proof.
  intros Hne Hts. pose proof (prompt_tokens_join ts Hne Hts) as E.
  pose proof (sync_stream_emits (Some (join (lit " ") ts))) as Hs.
  pose proof (async_stream_aemits (Some (join (lit " ") ts)) w) as Ha.
  rewrite E in Hs, Ha. split; assumption.
Qed.

Lemma stream_of_joined_words_example :
  emits (sync_stream (Some (lit "Hello, world!"))) [lit "Hello,"; lit "world!"]
        Exhausted SyncFinished.
Proof.
  refine (proj1 (stream_of_joined_words nat _ idle_loop [lit "Hello,"; lit "world!"] _ _)).
  - discriminate.
  - intros t [<-|[<-|[]]]; reflexivity.
Defined.

(** X12: completing is idempotent as long as the prompt has a token (or is
    absent or empty): the completion, given back as a prompt, streams the same
    tokens and completes to itself.  A prompt of whitespace only is the
    exception: its completion is the empty string, whose own completion is
    "No prompt provided". *)
Theorem completion_is_idempotent :
  (forall prompt : option str,
     prompt_tokens prompt <> [] ->
     let answer := join (lit " ") (prompt_tokens prompt) in
     returns (fun fuel => collect_sync_response fuel prompt) (Ret answer)
     /\ emits (sync_stream (Some answer)) (prompt_tokens prompt) Exhausted SyncFinished
     /\ returns (fun fuel => collect_sync_response fuel (Some answer)) (Ret answer))
  /\
  (forall s : str,
     s <> [] -> all_space s = true ->
     returns (fun fuel => collect_sync_response fuel (Some s)) (Ret [])
     /\ returns (fun fuel => collect_sync_response fuel (Some []))
                (Ret (lit "No prompt provided"))).
Proof.
  split.
  - intros prompt Hne answer.
    pose proof (prompt_tokens_join _ Hne (prompt_tokens_words prompt)) as E.
    pose proof (sync_stream_emits (Some answer)) as Hs.
    pose proof (collect_sync_returns (Some answer)) as Hc.
    unfold answer in *. rewrite E in Hs, Hc.
    split; [apply collect_sync_returns|]. split; assumption.
  - intros s Hne Hs. split.
    + pose proof (collect_sync_returns (Some s)) as Hc.
      now rewrite (all_space_prompt s Hne Hs) in Hc.
    + exact (collect_sync_returns (Some [])).
Qed.

Lemma completion_is_idempotent_example :
  (returns (fun fuel => collect_sync_response fuel (Some (lit "  a   b ")))
           (Ret (lit "a b"))
   /\ emits (sync_stream (Some (lit "a b"))) [lit "a"; lit "b"] Exhausted SyncFinished
   /\ returns (fun fuel => collect_sync_response fuel (Some (lit "a b"))) (Ret (lit "a b")))
  /\
  (returns (fun fuel => collect_sync_response fuel (Some (lit "   "))) (Ret [])
   /\ returns (fun fuel => collect_sync_response fuel (Some []))
              (Ret (lit "No prompt provided"))).
Proof.
  split.
  - refine (proj1 completion_is_idempotent (Some (lit "  a   b ")) _). discriminate.
  - refine (proj2 completion_is_idempotent (lit "   ") _ _); [discriminate|reflexivity].
Defined.

(** ** The client's signatures *)

Lemma bind_keywords_prompt_only {V} (fname : string) (kwargs : list (string * V)) :
  kwargs <> [] ->
  exists e, bind_keywords fname ["prompt"%string] ["prompt"%string] kwargs = Throw (Failure e)
            /\ exn_type e = "TypeError"%string.
Proof.
  destruct kwargs as [|[k v] rest]; [congruence|]. intros _. simpl.
  destruct (String.eqb k "prompt"); simpl; eexists; split; reflexivity.
Qed.

(** X16: [stream_sync] and [astream] take the prompt and nothing else: called
    with the prompt alone they give their sequence; called with any keyword
    argument besides, whatever its name, the call raises [TypeError] and no
    sequence is made. *)
Theorem client_streams_take_no_keyword (V : Type) (prompt : option str)
  (kwargs : list (string * V)) :
  (kwargs = [] ->
   LLMStreamingClient.call_stream_sync prompt kwargs = Ret (sync_stream prompt)
   /\ LLMStreamingClient.call_astream prompt kwargs
      = Ret (LLMStreamingClient.astream prompt))
  /\
  (kwargs <> [] ->
   exists e e',
     LLMStreamingClient.call_stream_sync prompt kwargs = Throw (Failure e)
     /\ LLMStreamingClient.call_astream prompt kwargs = Throw (Failure e')
     /\ exn_type e = "TypeError"%string /\ exn_type e' = "TypeError"%string).
Proof.
  split.
  - intros ->. split; reflexivity.
  - intros Hne.
    destruct (bind_keywords_prompt_only "stream_sync" kwargs Hne) as (e & He & Hty).
    destruct (bind_keywords_prompt_only "astream" kwargs Hne) as (e' & He' & Hty').
    exists e, e'. unfold LLMStreamingClient.call_stream_sync, LLMStreamingClient.call_astream.
    rewrite He, He'. repeat split; assumption.
Qed.

Lemma client_streams_take_no_keyword_example :
  LLMStreamingClient.call_stream_sync (V := unit) (Some (lit "Hello world")) []
  = Ret (sync_stream (Some (lit "Hello world")))
  /\
  exists e e',
    LLMStreamingClient.call_stream_sync (Some (lit "Hello world")) [("prompt"%string, tt)]
    = Throw (Failure e)
    /\ LLMStreamingClient.call_astream (Some (lit "Hello world")) [("prompt"%string, tt)]
       = Throw (Failure e')
    /\ exn_type e = "TypeError"%string /\ exn_type e' = "TypeError"%string.
Proof.
  split.
  - apply (proj1 (client_streams_take_no_keyword unit (Some (lit "Hello world")) [])).
    reflexivity.
  - apply (proj2 (client_streams_take_no_keyword unit (Some (lit "Hello world"))
                    [("prompt"%string, tt)])).
    discriminate.
Defined.
